(** * qsubgisom: the circuit construction and the parameter post-processing

    A shallow embedding of [qsubgisom/qsubgisom.py].  Python exceptions are
    results in an error type, NumPy arrays are a shape with row-major data,
    Qiskit circuits are a list of registers with a list of instructions.
    The angle post-processing is given twice: on the binary64 numbers that
    the program computes with, for what depends on the exact values, and
    over the real numbers (the idealisation of that arithmetic), for the
    bounds and for what does not depend on the values at all.

    What NumPy and Qiskit do is what the releases do that the module was
    written for (Qiskit with [opflow], NumPy with [np.object] and
    [np.product]); where the module relies on a check of theirs, the
    definition says so. *)

From Stdlib Require Import String Ascii DecimalString.
From Stdlib Require Import ZArith List Bool Lia Arith.
From Stdlib Require Import QArith Qround.
From Stdlib Require Import Reals Lra.
From Stdlib Require Import PrimFloat.
From Stdlib Require Import Permutation Sorted.
Import ListNotations.

#[local] Set Warnings "-register-all".

Local Open Scope string_scope.
Local Open Scope list_scope.

(** ** Python exceptions as results *)

Inductive exn : Set :=
| AssertionError
| ValueError
| UnboundLocalError
| IndexError
| OverflowError
| CircuitError.

Inductive result (A : Type) : Type :=
| Ok (a : A)
| Err (e : exn).

Arguments Ok {A} a.
Arguments Err {A} e.

Definition bind {A B : Type} (r : result A) (k : A -> result B) : result B :=
  match r with
  | Ok a => k a
  | Err e => Err e
  end.

Notation "x <- r ;; k" := (bind r (fun x => k))
  (at level 61, r at next level, right associativity).
Notation "' p <- r ;; k" := (bind r (fun x => let p := x in k))
  (at level 61, p pattern, r at next level, right associativity).

(** [assert b]: an [AssertionError] when the condition is false. *)
Definition assert (b : bool) : result unit :=
  if b then Ok tt else Err AssertionError.

Notation "'assert!' b ;; k" := (bind (assert b) (fun _ => k))
  (at level 61, b at next level, right associativity).

Fixpoint mapM {A B : Type} (f : A -> result B) (l : list A) : result (list B) :=
  match l with
  | [] => Ok []
  | x :: tl =>
      y <- f x ;;
      ys <- mapM f tl ;;
      Ok (y :: ys)
  end.

Definition is_ok {A : Type} (r : result A) : bool :=
  match r with Ok _ => true | Err _ => false end.

(** ** NumPy arrays: a shape and the elements in row-major order *)

Record ndarray (A : Type) : Type := mk_ndarray {
  shape : list nat;
  data : list A
}.

Arguments mk_ndarray {A} shape data.
Arguments shape {A} n.
Arguments data {A} n.

Definition ndim {A} (a : ndarray A) : nat := length (shape a).

(** [len(a)], the first dimension (the arrays of this module have ndim >= 1
    wherever [len] is taken). *)
Definition len {A} (a : ndarray A) : nat := hd 0%nat (shape a).

Definition shape_eqb (s t : list nat) : bool :=
  if list_eq_dec Nat.eq_dec s t then true else false.

(** Rows of a 2-d array: [nr] slices of [nc] elements. *)
Fixpoint chunks {A} (nr nc : nat) (l : list A) : list (list A) :=
  match nr with
  | O => []
  | S k => firstn nc l :: chunks k nc (skipn nc l)
  end.

Definition rows_of {A} (a : ndarray A) : list (list A) :=
  match shape a with
  | [r; c] => chunks r c (data a)
  | _ => []
  end.

(** ** [_is_pow_2] *)

(** [bin(v)]: the binary digits, most significant first, after ["0b"], with a
    leading minus sign for a negative integer. *)
Fixpoint bits_of_pos (p : positive) : string :=
  match p with
  | xH => "1"
  | xO q => (bits_of_pos q ++ "0")%string
  | xI q => (bits_of_pos q ++ "1")%string
  end.

Definition bin (v : Z) : string :=
  match v with
  | Z0 => "0b0"
  | Zpos p => ("0b" ++ bits_of_pos p)%string
  | Zneg p => ("-0b" ++ bits_of_pos p)%string
  end.

(** [s.count(c)] for a pattern of one character. *)
Fixpoint str_count (c : ascii) (s : string) : nat :=
  match s with
  | EmptyString => 0
  | String d t => (if Ascii.eqb d c then 1 else 0) + str_count c t
  end.

Definition _is_pow_2 (v : Z) : bool :=
  (str_count "1"%char (bin v) =? 1)%nat || (v =? 0)%Z.

(** ** [_pow2_shaped_mat_validation] *)

Definition _pow2_shaped_mat_validation {A} (mat : ndarray A) : result (ndarray A) :=
  assert! (ndim mat =? 2)%nat ;;
  assert! (nth 0 (shape mat) 0 =? nth 1 (shape mat) 0)%nat ;;
  assert! forallb _is_pow_2 (map Z.of_nat (shape mat)) ;;
  Ok mat.

(** ** Qiskit: registers and qubits *)

Record QuantumRegister : Set := mk_qreg {
  reg_name : string;
  reg_size : nat
}.

(** A qubit is a register with an index; Qiskit compares bits by these. *)
Record Qubit : Set := mk_qubit {
  q_reg : QuantumRegister;
  q_index : nat
}.

Definition qreg_eqb (r s : QuantumRegister) : bool :=
  String.eqb (reg_name r) (reg_name s) && (reg_size r =? reg_size s)%nat.

Definition qubit_eqb (p q : Qubit) : bool :=
  qreg_eqb (q_reg p) (q_reg q) && (q_index p =? q_index q)%nat.

Definition reg_bits (r : QuantumRegister) : list Qubit :=
  map (mk_qubit r) (seq 0 (reg_size r)).

(** Python indexing of a sequence: a negative index counts from the end. *)
Definition py_index {A} (l : list A) (i : Z) : option A :=
  if (0 <=? i)%Z then nth_error l (Z.to_nat i)
  else if (- Z.of_nat (length l) <=? i)%Z
       then nth_error l (Z.to_nat (Z.of_nat (length l) + i))
       else None.

(** [qreg[i]] *)
Definition qreg_getitem (r : QuantumRegister) (i : Z) : result Qubit :=
  match py_index (reg_bits r) i with
  | Some q => Ok q
  | None => Err IndexError
  end.

(** [QuantumRegister(size)] without a name: the name is the prefix ["q"]
    followed by the value of the class-wide instance counter. *)
Definition auto_qreg (counter size : nat) : QuantumRegister :=
  mk_qreg ("q" ++ NilEmpty.string_of_uint (Nat.to_uint counter))%string size.

(** ** Qiskit: gates and circuits, over a type [S] of angle values
    (symbolic parameters, numbers) *)

Section Circuits.

Context {S : Type}.

(** An angle of a gate: a value of the parameter array, or the negation that
    [inverse()] puts in front of it. *)
Inductive angle : Type :=
| Ang (s : S)
| Neg (a : angle).

(** The operations this module puts in circuits.  A gate made by [to_gate]
    carries its label, its width and its definition over qubit positions. *)
Inductive Op : Type :=
| OpH
| OpP (phi : angle)
| OpCP (phi : angle)
| OpDiagonal (diag : list bool)
| OpGate (label : option string) (width : nat) (definition : list (Op * list nat)).

Definition op_label (o : Op) : option string :=
  match o with
  | OpGate l _ _ => l
  | _ => None
  end.

Definition op_num_qubits (o : Op) : nat :=
  match o with
  | OpH => 1
  | OpP _ => 1
  | OpCP _ => 2
  | OpDiagonal d => Nat.log2 (length d)
  | OpGate _ w _ => w
  end.

(** [inverse()] of an operation: H is its own inverse, a phase gate negates
    its angle, a diagonal of entries 1 and -1 is its own inverse, and a
    composite gate inverts its definition in reverse order (and loses its
    label). *)
Fixpoint op_inverse (o : Op) : Op :=
  match o with
  | OpH => OpH
  | OpP phi => OpP (Neg phi)
  | OpCP phi => OpCP (Neg phi)
  | OpDiagonal d => OpDiagonal d
  | OpGate _ w defn =>
      OpGate None w
        (rev (map (fun ins => let '(o', qs) := ins in (op_inverse o', qs)) defn))
  end.

Record QuantumCircuit : Type := mk_qc {
  qregs : list QuantumRegister;
  qc_data : list (Op * list Qubit)
}.

(** [QuantumCircuit] over the given registers, without instructions *)
Definition new_circuit (regs : list QuantumRegister) : QuantumCircuit :=
  mk_qc regs [].

Definition qubits (qc : QuantumCircuit) : list Qubit :=
  flat_map reg_bits (qregs qc).

Definition num_qubits (qc : QuantumCircuit) : nat := length (qubits qc).

(** A qubit argument of a gate method: an integer index into the circuit, or
    qubits (a register, a slice of one). *)
Inductive qarg : Type :=
| QInt (i : Z)
| QBits (qs : list Qubit).

Definition qbit_argument_conversion (qc : QuantumCircuit) (a : qarg)
  : result (list Qubit) :=
  match a with
  | QInt i =>
      match py_index (qubits qc) i with
      | Some q => Ok [q]
      | None => Err CircuitError
      end
  | QBits qs => Ok qs
  end.

(** A one-qubit gate on an argument: one instruction per qubit of the
    argument; Qiskit refuses an empty argument. *)
Definition append1 (qc : QuantumCircuit) (o : Op) (a : qarg)
  : result QuantumCircuit :=
  qs <- qbit_argument_conversion qc a ;;
  match qs with
  | [] => Err CircuitError
  | _ => Ok (mk_qc (qregs qc) (qc_data qc ++ map (fun q => (o, [q])) qs))
  end.

(** A two-qubit gate on two integer indices; Qiskit refuses a repeated
    qubit. *)
Definition append2 (qc : QuantumCircuit) (o : Op) (c t : Z)
  : result QuantumCircuit :=
  qc1 <- qbit_argument_conversion qc (QInt c) ;;
  qc2 <- qbit_argument_conversion qc (QInt t) ;;
  match qc1, qc2 with
  | [q1], [q2] =>
      if qubit_eqb q1 q2 then Err CircuitError
      else Ok (mk_qc (qregs qc) (qc_data qc ++ [(o, [q1; q2])]))
  | _, _ => Err CircuitError
  end.

Definition qc_h (qc : QuantumCircuit) (a : qarg) := append1 qc OpH a.
Definition qc_p (phi : S) (qc : QuantumCircuit) (t : Z) :=
  append1 qc (OpP (Ang phi)) (QInt t).
Definition qc_cp (phi : S) (qc : QuantumCircuit) (c t : Z) :=
  append2 qc (OpCP (Ang phi)) c t.

(** Position of a qubit in a list of qubits. *)
Fixpoint index_of (q : Qubit) (l : list Qubit) : nat :=
  match l with
  | [] => 0
  | p :: tl => if qubit_eqb p q then 0 else 1 + index_of q tl
  end.

(** [other.qubits[k]] is sent to [dest[k]]. *)
Definition remap (src dest : list Qubit) (q : Qubit) : Qubit :=
  nth (index_of q src) dest q.

(** [self.compose(other, qubits=..., front=...)] for a circuit [other]:
    [other] must not be wider than [self]; without [qubits] its qubits go to
    the first qubits of [self], with [qubits] there must be one per qubit of
    [other].  The instructions come after those of [self], or before them
    with [front=True]. *)
Definition compose (self other : QuantumCircuit)
    (onto : option (list Qubit)) (front : bool) : result QuantumCircuit :=
  if (num_qubits self <? num_qubits other)%nat then Err CircuitError
  else
    dest <- match onto with
            | None => Ok (firstn (num_qubits other) (qubits self))
            | Some qs =>
                if (length qs =? num_qubits other)%nat then Ok qs
                else Err CircuitError
            end ;;
    let mapped :=
      map (fun ins => let '(o, qs) := ins in (o, map (remap (qubits other) dest) qs))
          (qc_data other) in
    Ok (mk_qc (qregs self)
          (if front then mapped ++ qc_data self else qc_data self ++ mapped)).

(** [self.compose(gate, qubits=...)] for a gate: it is appended on [qubits],
    by default the first qubits of [self]; the number of qubits must be the
    width of the gate. *)
Definition compose_gate (self : QuantumCircuit) (g : Op)
    (onto : option (list Qubit)) : result QuantumCircuit :=
  let qs := match onto with
            | None => firstn (op_num_qubits g) (qubits self)
            | Some qs => qs
            end in
  if (length qs =? op_num_qubits g)%nat
  then Ok (mk_qc (qregs self) (qc_data self ++ [(g, qs)]))
  else Err CircuitError.

(** [qc.to_gate(label=...)] *)
Definition to_gate (qc : QuantumCircuit) (label : option string) : Op :=
  OpGate label (num_qubits qc)
    (map (fun ins => let '(o, qs) := ins in
                     (o, map (fun q => index_of q (qubits qc)) qs))
         (qc_data qc)).

(** [qc.inverse()] *)
Definition inverse (qc : QuantumCircuit) : QuantumCircuit :=
  mk_qc (qregs qc)
    (rev (map (fun ins => let '(o, qs) := ins in (op_inverse o, qs)) (qc_data qc))).

(** [Diagonal(diag)] of the circuit library, for a diagonal of phases
    [exp(i*pi*b)] given by the bits [b]: the number of entries must be a
    power of two with at least one qubit. *)
Definition Diagonal (diag : list bool) : result QuantumCircuit :=
  let k := Nat.log2 (length diag) in
  if ((2 ^ k =? length diag) && (1 <=? k))%nat
  then
    let r := mk_qreg "q" k in
    Ok (mk_qc [r] [(OpDiagonal diag, reg_bits r)])
  else Err CircuitError.

(** ** [_hcph] and [_s4_block] *)

Inductive IntOrTuple : Set :=
| AsInt (target : Z)
| AsTuple (ctrl target : Z).

Definition _hcph (phi : S) (qc : QuantumCircuit) (qbs : IntOrTuple)
  : result QuantumCircuit :=
  let '(ctrl, target) :=
    match qbs with
    | AsTuple c t => (c, t)
    | AsInt t => ((-1)%Z, t)
    end in
  qc <- qc_h qc (QInt target) ;;
  qc <- (if (0 <=? ctrl)%Z then qc_cp phi qc ctrl target
         else qc_p phi qc target) ;;
  qc_h qc (QInt target).

Definition S4_BLOCK_PARCOUNT : nat := 5.

(** [params[k]] of a flat array *)
Definition getitem (params : list S) (k : nat) : result S :=
  match nth_error params k with
  | Some x => Ok x
  | None => Err IndexError
  end.

(** [params] is the flattened array of the parameters of the block. *)
Definition _s4_block (params : list S) : result QuantumCircuit :=
  assert! (length params =? S4_BLOCK_PARCOUNT)%nat ;;
  let qc := new_circuit [mk_qreg "q" 2] in
  p0 <- getitem params 0 ;;
  qc <- _hcph p0 qc (AsInt 0) ;;
  qc <- qc_h qc (QInt 1) ;;
  p1 <- getitem params 1 ;;
  qc <- qc_p p1 qc 1 ;;
  p2 <- getitem params 2 ;;
  qc <- qc_cp p2 qc 0 1 ;;
  qc <- qc_h qc (QInt 1) ;;
  p3 <- getitem params 3 ;;
  qc <- _hcph p3 qc (AsTuple 1 0) ;;
  p4 <- getitem params 4 ;;
  qc <- _hcph p4 qc (AsTuple 0 1) ;;
  Ok qc.

End Circuits.

Arguments angle S : clear implicits.
Arguments Op S : clear implicits.
Arguments QuantumCircuit S : clear implicits.

(** ** NumPy operations used by the topology expansion *)

(** [np.arange(n)] *)
Definition np_arange (n : Z) : list Z := map Z.of_nat (seq 0 (Z.to_nat n)).

(** [np.stack([v, w])] of two 1-d arrays of one length *)
Definition np_stack2 {A} (v w : list A) : ndarray A :=
  mk_ndarray [2; length v]%nat (v ++ w).

(** [a.T] of a 2-d array (the only use in this module) *)
Definition np_T {A} (a : ndarray A) : ndarray A :=
  match shape a with
  | [r; c] =>
      mk_ndarray [c; r]
        (flat_map (fun j =>
           flat_map (fun i =>
             match nth_error (data a) (i * c + j) with
             | Some x => [x]
             | None => []
             end) (seq 0 r)) (seq 0 c))
  | _ => a
  end.

(** [np.concatenate([a, b], axis=0)] of two 2-d arrays with as many columns *)
Definition np_concatenate0 {A} (a b : ndarray A) : ndarray A :=
  mk_ndarray [(len a + len b)%nat; nth 1 (shape a) 0%nat] (data a ++ data b).

(** [np.vectorize(f)(a)]: NumPy refuses an array without elements (the
    output type is found by calling [f] on the first one); otherwise [f] is
    applied to every element and the shape is kept. *)
Definition np_vectorize {A B} (f : A -> result B) (a : ndarray A)
  : result (ndarray B) :=
  match data a with
  | [] => Err ValueError
  | _ =>
      d <- mapM f (data a) ;;
      Ok (mk_ndarray (shape a) d)
  end.

(** ** [_map_qreg] and [_expand_topology] *)

Definition _map_qreg (array : ndarray Z) (qreg : QuantumRegister)
  : result (ndarray Qubit) :=
  np_vectorize (fun i => qreg_getitem qreg i) array.

(** A topology: the name of a pre-defined one, or an array of index pairs. *)
Inductive topology_spec : Type :=
| TopoName (name : string)
| TopoArray (pairs : ndarray Z).

Definition _expand_topology (topology : topology_spec) (qreg : QuantumRegister)
  : result (ndarray Qubit) :=
  topology <-
    match topology with
    | TopoName name =>
        if String.eqb name "linear" || String.eqb name "circular" then
          let v := np_arange (Z.of_nat (reg_size qreg) - 1) in
          let v := np_T (np_stack2 v (map (fun k => (k + 1)%Z) v)) in
          let v :=
            if String.eqb name "circular" && (2 <? reg_size qreg)%nat
            then np_concatenate0 v
                   (mk_ndarray [1; 2]%nat [(Z.of_nat (reg_size qreg) - 1)%Z; 0%Z])
            else v in
          Ok v
        else Err ValueError
    | TopoArray pairs => Ok pairs
    end ;;
  assert! (ndim topology =? 2)%nat && (nth 1 (shape topology) 0 =? 2)%nat ;;
  _map_qreg topology qreg.

(** ** [params_tensor] *)

(** An element of a [ParameterVector]: the name of the vector and the index. *)
Record Param : Set := mk_param {
  param_vec : string;
  param_idx : nat
}.

Definition np_product (shp : list nat) : nat := fold_right Nat.mul 1%nat shp.

(** The tensor for a shape of at least one dimension, as [s4_ansatz] asks
    for it.  For the empty shape [np.product] is the float 1.0, which
    [ParameterVector] does not take as a length: that call raises, and this
    definition does not describe it. *)
Definition params_tensor (shp : list nat) (name : string) : ndarray Param :=
  mk_ndarray shp (map (mk_param name) (seq 0 (np_product shp))).

(** ** [s4_ansatz] *)

Section Ansatz.

Context {S : Type}.

(** How a fresh symbolic parameter sits among the angle values. *)
Variable of_parameter : Param -> S.

(** The loop of [s4_ansatz]: one block per pair of parameters and qubits. *)
Fixpoint s4_blocks (qc : QuantumCircuit S) (pairs : list (list S * list Qubit))
  : result (QuantumCircuit S) :=
  match pairs with
  | [] => Ok qc
  | (v, q) :: tl =>
      blk <- _s4_block v ;;
      qc <- compose qc blk (Some q) false ;;
      s4_blocks qc tl
  end.

(** [qreg] is a register, or a size (then [counter] is the value of the
    instance counter of Qiskit's registers, which names the new one). *)
Definition s4_ansatz (counter : nat) (topology : topology_spec)
    (qreg : QuantumRegister + nat) (params : option (ndarray S))
  : result (QuantumCircuit S * ndarray S) :=
  let qreg := match qreg with
              | inl r => r
              | inr size => auto_qreg counter size
              end in
  topology <- _expand_topology topology qreg ;;
  let params :=
    match params with
    | None =>
        let t := params_tensor [len topology; S4_BLOCK_PARCOUNT] "t" in
        mk_ndarray (shape t) (map of_parameter (data t))
    | Some p => p
    end in
  assert! (ndim params =? 2)%nat && (nth 1 (shape params) 0 =? S4_BLOCK_PARCOUNT)%nat ;;
  assert! (len params =? len topology)%nat ;;
  let qc := new_circuit [qreg] in
  qc <- s4_blocks qc (combine (rows_of params) (rows_of topology)) ;;
  let qc_ := new_circuit [qreg] in
  qc_ <- compose_gate qc_ (to_gate qc (Some "PermAnsatz")) None ;;
  Ok (qc_, params).

(** ** [_circ_qregs] *)

(** The registers i, j and a for an operator on [n] qubits. *)
Definition _circ_qregs (n : nat)
  : result (QuantumRegister * QuantumRegister * QuantumRegister) :=
  assert! ((n + 1) mod 2 =? 0)%nat ;;
  let m := ((n - 1) / 2)%nat in
  Ok (mk_qreg "i" m, mk_qreg "j" m, mk_qreg "a" 1).

(** [_circ_qregs(n, as_qubits=True)]: the qubits of the three registers. *)
Definition _circ_qregs_as_qubits (n : nat) : result (list Qubit) :=
  '(i, j, a) <- _circ_qregs n ;;
  Ok (reg_bits i ++ reg_bits j ++ reg_bits a).

(** ** [_mat_zero_ext] *)

(** [ret = zeros(shape); ret[:r, :c] = mat] for a 2-d [mat] of shape [(r, c)]
    and a 2-d target shape: NumPy assigns when every side of [mat] is the
    side of the slice or 1 (broadcast), and raises [ValueError] otherwise. *)
Definition _mat_zero_ext {A} (zero : A) (mat : ndarray A) (shp : list nat)
  : result (ndarray A) :=
  match shp, shape mat with
  | [R; C], [r; c] =>
      let r' := Nat.min r R in
      let c' := Nat.min c C in
      if (((r =? r') || (r =? 1)) && ((c =? c') || (c =? 1)))%nat then
        Ok (mk_ndarray [R; C]
              (flat_map (fun i =>
                 map (fun j =>
                   if ((i <? r') && (j <? c'))%nat
                   then nth ((if (r =? 1)%nat then 0 else i) * c
                             + (if (c =? 1)%nat then 0 else j)) (data mat) zero
                   else zero) (seq 0 C)) (seq 0 R)))
      else Err ValueError
  | _, _ => Err IndexError
  end.

(** ** [_adj_flatten_repr] *)

(** [np.round(x)] of NumPy: to the nearest integer, a half to the even one. *)
Definition np_round (x : Q) : Z :=
  let f := Qfloor x in
  match Qcompare (x - inject_Z f) (1 # 2) with
  | Lt => f
  | Gt => (f + 1)%Z
  | Eq => if Z.even f then f else (f + 1)%Z
  end.

(** The diagonal [exp(1j * adj * pi)] is kept as the bits of [adj]: a bit
    [false] is the phase 1, a bit [true] the phase -1. *)
Definition _adj_flatten_repr (adj : ndarray Q) (shp : option (list nat))
  : result (QuantumCircuit S) :=
  let adj := mk_ndarray (shape adj)
               (map (fun x => negb (np_round x =? 0)%Z) (data adj)) in
  assert! (ndim adj =? 2)%nat && (nth 0 (shape adj) 0 =? nth 1 (shape adj) 0)%nat ;;
  adj <- match shp with
         | None => Ok adj
         | Some s => _mat_zero_ext false adj s
         end ;;
  assert! _is_pow_2 (Z.of_nat (len adj)) ;;
  let adj := data adj in
  let adj := map (fun _ => false) adj ++ adj in
  adj <- Diagonal adj ;;
  '(i, j, a) <- _circ_qregs (num_qubits adj) ;;
  let qc := new_circuit [i; j; a] in
  qs <- _circ_qregs_as_qubits (num_qubits adj) ;;
  compose_gate qc (to_gate adj (Some "QAdj")) (Some qs).

(** ** [_qc_block] *)

Definition _qc_block (qc : QuantumCircuit S) (label : option string)
  : result (QuantumCircuit S) :=
  let qc_ := new_circuit (qregs qc) in
  compose_gate qc_ (to_gate qc label) None.

(** ** [ansatz] *)

(** [int(np.log2(n))]: minus infinity at 0 has no integer. *)
Definition int_log2 (n : nat) : result nat :=
  if (n =? 0)%nat then Err OverflowError else Ok (Nat.log2 n).

Definition ansatz (adj1 adj2 : ndarray Q) (topology : topology_spec)
  : result (QuantumCircuit S * ndarray S) :=
  adj1 <- _pow2_shaped_mat_validation adj1 ;;
  adj2 <- _pow2_shaped_mat_validation adj2 ;;
  assert! (len adj2 <=? len adj1)%nat ;;
  let gisom := shape_eqb (shape adj1) (shape adj2) in
  qc <- _adj_flatten_repr adj1 None ;;
  '(ri, rj, ra) <- _circ_qregs (num_qubits qc) ;;
  let h_layer := new_circuit [ri; rj; ra] in
  n <- int_log2 (len adj2) ;;
  h_layer <- qc_h h_layer (QBits (firstn n (reg_bits ri))) ;;
  h_layer <- qc_h h_layer (QBits (firstn n (reg_bits rj))) ;;
  h_layer <- qc_h h_layer (QBits (reg_bits ra)) ;;
  '(perm_qc, params) <- s4_ansatz 0 topology (inl ri) None ;;
  qc <- (if negb gisom then
           blk <- _qc_block (inverse perm_qc) (Some "PermAnsatzDg") ;;
           qc <- compose qc blk (Some (reg_bits ri)) true ;;
           blk <- _qc_block (inverse perm_qc) (Some "PermAnsatzDg") ;;
           compose qc blk (Some (reg_bits rj)) true
         else Ok qc) ;;
  qc <- compose qc h_layer None true ;;
  qc <- compose qc perm_qc (Some (reg_bits ri)) false ;;
  qc <- compose qc perm_qc (Some (reg_bits rj)) false ;;
  adj2c <- _adj_flatten_repr adj2 (Some (shape adj1)) ;;
  qc <- compose qc adj2c None false ;;
  qc <- compose qc h_layer None false ;;
  Ok (qc, params).

End Ansatz.

(** The number of instructions of a circuit that carry a label. *)
Definition count_label {S} (l : string) (qc : QuantumCircuit S) : nat :=
  length (filter (fun ins =>
                    match op_label (fst ins) with
                    | Some l' => String.eqb l l'
                    | None => false
                    end) (qc_data qc)).

(** ** [thetas_to_prob], over the real numbers *)

(** Truncation toward zero. *)
Definition Rtrunc (x : R) : Z :=
  if Rle_dec 0 x then Int_part x else (- Int_part (- x))%Z.

(** [np.modf(x)]: the fractional and the integral part, each with the sign
    of [x]. *)
Definition np_modf (x : R) : R * R :=
  ((x - IZR (Rtrunc x))%R, IZR (Rtrunc x)).

(** [x % y] of NumPy: the remainder of the floor division. *)
Definition np_mod (x y : R) : R :=
  (x - y * IZR (Int_part (x / y)))%R.

(** The function on one angle; on an array NumPy applies it to every
    element. *)
Definition thetas_to_prob (x : R) : R :=
  let x := (x / PI)%R in
  let x := Rabs x in
  let r := np_modf x in
  let r := (fst r, np_mod (snd r) 2) in
  Rabs (fst r - snd r).

(** ** [thetas_to_prob], on binary64 numbers

    The same function on the doubles of NumPy, as the program runs.  [np.modf]
    and [%] are those of the C library on the values that reach them here:
    a finite non-negative number, and a non-negative integral one. *)

Module Binary64.

Local Open Scope float_scope.

(** [np.pi] *)
Definition np_pi : float := 0x1.921fb54442d18p+1.

Definition two52 : float := 0x1p52.

(** The largest integer that is at most [x], for [x >= 0]: from 2^52 on
    every double is an integer, and below it adding and subtracting 2^52
    rounds to a nearest integer. *)
Definition floor_nonneg (x : float) : float :=
  if x <? two52 then
    let r := (x + two52) - two52 in
    if x <? r then r - 1 else r
  else x.

Definition np_modf (x : float) : float * float :=
  let t := if 0 <=? x then floor_nonneg x else - floor_nonneg (- x) in
  (x - t, t).

(** [x % 2] for an integral [x >= 0] *)
Definition np_mod_2 (x : float) : float :=
  x - 2 * floor_nonneg (x / 2).

Definition thetas_to_prob (x : float) : float :=
  let x := x / np_pi in
  let x := abs x in
  let r := np_modf x in
  let r := (fst r, np_mod_2 (snd r)) in
  abs (fst r - snd r).

End Binary64.

(** ** [sample_exact_thetas] *)

(** A local variable of a Python function: unbound until it is assigned. *)
Inductive local (A : Type) : Type :=
| Unbound
| Bound (a : A).

Arguments Unbound {A}.
Arguments Bound {A} a.

(** Reading a local variable *)
Definition load {A} (l : local A) : result A :=
  match l with
  | Unbound => Err UnboundLocalError
  | Bound a => Ok a
  end.

Section Sampling.

(** The keys of the dictionaries, with their equality. *)
Context {K : Type}.
Variable K_eqb : K -> K -> bool.

(** A Python [dict]: the items in insertion order. *)
Definition pydict (V : Type) : Type := list (K * V).

(** [d[k] = v]: the value of an existing key is replaced in place, a new key
    goes to the end. *)
Fixpoint dict_set {V} (d : pydict V) (k : K) (v : V) : pydict V :=
  match d with
  | [] => [(k, v)]
  | (k', v') :: tl =>
      if K_eqb k' k then (k', v) :: tl else (k', v') :: dict_set tl k v
  end.

(** [dict(items)] *)
Definition dict_of_items {V} (items : list (K * V)) : pydict V :=
  fold_left (fun d kv => dict_set d (fst kv) (snd kv)) items [].

Definition dict_keys {V} (d : pydict V) : list K := map fst d.
Definition dict_values {V} (d : pydict V) : list V := map snd d.

(** The argument [v]: a plain array of angles, or a dict of angles. *)
Inductive thetas : Type :=
| ThetaArray (v : list R)
| ThetaDict (d : pydict R).

(** The value returned: the raw array of shape [(n, len(v))], or a list of
    dicts. *)
Inductive sampled : Type :=
| SampledArray (v : list (list R))
| SampledDicts (v : list (pydict R)).

(** The stream of doubles in [0, 1) that the bit generator of NumPy yields
    from a seed. *)
Variable bit_generator : Z -> nat -> R.

(** [np.random.default_rng(seed)]: an integer seed must not be negative;
    without a seed, fresh entropy of the operating system seeds the
    generator. *)
Definition default_rng (entropy : Z) (seed : option Z) : result (nat -> R) :=
  match seed with
  | Some s => if (s <? 0)%Z then Err ValueError else Ok (bit_generator s)
  | None => Ok (bit_generator entropy)
  end.

(** [rng.uniform(size=(n, k))] *)
Definition rng_uniform (rng : nat -> R) (n k : nat) : list (list R) :=
  map (fun i => map (fun j => rng (i * k + j)%nat) (seq 0 k)) (seq 0 n).

(** A boolean as a number, as NumPy multiplies it. *)
Definition R_of_bool (b : bool) : R := if b then 1%R else 0%R.

Definition Rltb (x y : R) : bool := if Rlt_dec x y then true else false.

(** [entropy] is the entropy of the operating system at the call. *)
Definition sample_exact_thetas (entropy : Z) (v : thetas) (n : nat)
    (seed : option Z) : result sampled :=
  let '(dkeys, v) :=
    match v with
    | ThetaDict d => (Bound (Some (dict_keys d)), dict_values d)
    | ThetaArray a => (Unbound, a)
    end in
  let v := map thetas_to_prob v in
  rng <- default_rng entropy seed ;;
  let prob := rng_uniform rng n (length v) in
  let v := map (fun row =>
                  map (fun pt => (R_of_bool (Rltb (fst pt) (snd pt)) * PI)%R)
                      (combine row v)) prob in
  dkeys <- load dkeys ;;
  match dkeys with
  | Some keys =>
      let v := map (fun v1 => dict_of_items (combine keys v1)) v in
      assert! (length v =? n)%nat ;;
      Ok (SampledDicts v)
  | None => Ok (SampledArray v)
  end.

(** Every angle of a returned value. *)
Definition sampled_values (s : sampled) : list R :=
  match s with
  | SampledArray v => concat v
  | SampledDicts ds => flat_map dict_values ds
  end.

End Sampling.

(** ** [sample_exact_thetas], on binary64 numbers

    The same function with the angles, the draws and the probabilities as
    the doubles of NumPy: the probabilities are those of
    [Binary64.thetas_to_prob], [<] and [*] are the comparison and the
    product of IEEE 754, and [True] and [False] enter the product as 1.0
    and 0.0. *)

Module Sampling64.

Section Sampling.

Context {K : Type}.
Variable K_eqb : K -> K -> bool.

Inductive thetas : Type :=
| ThetaArray (v : list float)
| ThetaDict (d : @pydict K float).

Inductive sampled : Type :=
| SampledArray (v : list (list float))
| SampledDicts (v : list (@pydict K float)).

(** The stream of doubles in [0, 1) that the bit generator of NumPy yields
    from a seed. *)
Variable bit_generator : Z -> nat -> float.

Definition default_rng (entropy : Z) (seed : option Z)
  : result (nat -> float) :=
  match seed with
  | Some s => if (s <? 0)%Z then Err ValueError else Ok (bit_generator s)
  | None => Ok (bit_generator entropy)
  end.

(** [rng.uniform(size=(n, k))] *)
Definition rng_uniform (rng : nat -> float) (n k : nat) : list (list float) :=
  map (fun i => map (fun j => rng (i * k + j)%nat) (seq 0 k)) (seq 0 n).

Definition float_of_bool (b : bool) : float := if b then 1%float else 0%float.

Definition sample_exact_thetas (entropy : Z) (v : thetas) (n : nat)
    (seed : option Z) : result sampled :=
  let '(dkeys, v) :=
    match v with
    | ThetaDict d => (Bound (Some (dict_keys d)), dict_values d)
    | ThetaArray a => (Unbound, a)
    end in
  let v := map Binary64.thetas_to_prob v in
  rng <- default_rng entropy seed ;;
  let prob := rng_uniform rng n (length v) in
  let v := map (fun row =>
                  map (fun pt =>
                         (float_of_bool (fst pt <? snd pt) * Binary64.np_pi)%float)
                      (combine row v)) prob in
  dkeys <- load dkeys ;;
  match dkeys with
  | Some keys =>
      let v := map (fun v1 => dict_of_items K_eqb (combine keys v1)) v in
      assert! (length v =? n)%nat ;;
      Ok (SampledDicts v)
  | None => Ok (SampledArray v)
  end.

(** Every angle of a returned value. *)
Definition sampled_values (s : sampled) : list float :=
  match s with
  | SampledArray v => concat v
  | SampledDicts ds => flat_map dict_values ds
  end.

End Sampling.

End Sampling64.

(** ** [perm_to_2line] *)

(** A matrix is the list of its rows. *)
Definition matrix : Type := list (list Z).

(** The elements of a list with their positions. *)
Definition enumerate {A} (l : list A) : list (nat * A) :=
  combine (seq 0 (length l)) l.

(** The coordinates of the non-zero entries, in row-major order. *)
Definition nonzero_coords (mat : matrix) : list (nat * nat) :=
  flat_map (fun ir =>
    flat_map (fun jx => if (snd jx =? 0)%Z then [] else [(fst ir, fst jx)])
             (enumerate (snd ir)))
    (enumerate mat).

(** [np.stack(np.nonzero(mat))]: the row of the row indices over the row of
    the column indices. *)
Definition stack_nonzero (mat : matrix) : list (list nat) :=
  [map fst (nonzero_coords mat); map snd (nonzero_coords mat)].

(** Sorting pairs by their key, keeping the order of equal keys. *)
Fixpoint insert_by_key {B} (x : nat * B) (l : list (nat * B)) : list (nat * B) :=
  match l with
  | [] => [x]
  | y :: tl =>
      if (fst x <=? fst y)%nat then x :: l else y :: insert_by_key x tl
  end.

Fixpoint sort_by_key {B} (l : list (nat * B)) : list (nat * B) :=
  match l with
  | [] => []
  | x :: tl => insert_by_key x (sort_by_key tl)
  end.

(** [np.argsort(keys)]: the positions of the keys in ascending order of the
    keys (NumPy's default sort does not promise an order among equal keys;
    here they stay in place). *)
Definition argsort (keys : list nat) : list nat :=
  map snd (sort_by_key (combine keys (seq 0 (length keys)))).

(** [m[:, idx]] *)
Definition take_columns (m : list (list nat)) (idx : list nat) : list (list nat) :=
  map (fun row => map (fun k => nth k row 0%nat) idx) m.

Definition perm_to_2line (mat : matrix) (inverse : bool) : list (list nat) :=
  let mat := stack_nonzero mat in
  let mat := if inverse then mat else rev mat in
  take_columns mat (argsort (nth 0 mat [])).

(** ** Notions of the specification *)

(** A permutation matrix of side [n]: [n] rows of [n] entries 0 or 1, with
    one 1 in every row and in every column. *)
Definition count_ones (l : list Z) : nat :=
  length (filter (fun x => (x =? 1)%Z) l).

Definition column (mat : matrix) (j : nat) : list Z :=
  map (fun row => nth j row 0%Z) mat.

Definition is_perm_matrix (n : nat) (mat : matrix) : bool :=
  (length mat =? n)%nat
  && forallb (fun row => (length row =? n)%nat) mat
  && forallb (forallb (fun x => (x =? 0)%Z || (x =? 1)%Z)) mat
  && forallb (fun row => (count_ones row =? 1)%nat) mat
  && forallb (fun j => (count_ones (column mat j) =? 1)%nat) (seq 0 n).

(** The matrix of side [n] of a two-line symbol: the column of the symbol
    with [t] on top of [b] says that the permutation sends [t] to [b], which
    is the entry 1 in row [b] and column [t] of the matrix that acts on
    column vectors. *)
Definition matrix_of_2line (n : nat) (sym : list (list nat)) : matrix :=
  let cols := combine (nth 0 sym []) (nth 1 sym []) in
  map (fun i =>
         map (fun j =>
                if existsb (fun tb => (fst tb =? j)%nat && (snd tb =? i)%nat) cols
                then 1%Z else 0%Z)
             (seq 0 n))
      (seq 0 n).

(** Swapping the two rows of a symbol and sorting its columns again by the
    top row. *)
Definition swap_and_resort (sym : list (list nat)) : list (list nat) :=
  let m := rev sym in
  take_columns m (argsort (nth 0 m [])).

(** The qubit of a register at a non-negative index. *)
Definition qubit_of (r : QuantumRegister) (i : Z) : Qubit :=
  mk_qubit r (Z.to_nat i).

(** The pairs of the linear topology over a register. *)
Definition linear_pairs (r : QuantumRegister) : list (list Qubit) :=
  map (fun k => [mk_qubit r k; mk_qubit r (S k)])
      (seq 0 (reg_size r - 1)).

(** The register that [s4_ansatz] works on. *)
Definition register_of (counter : nat) (qreg : QuantumRegister + nat)
  : QuantumRegister :=
  match qreg with
  | inl r => r
  | inr size => auto_qreg counter size
  end.

(** The registers of the assembled circuit, for index registers of [m]
    qubits. *)
Definition reg_i (m : nat) : QuantumRegister := mk_qreg "i" m.
Definition reg_j (m : nat) : QuantumRegister := mk_qreg "j" m.
Definition reg_a : QuantumRegister := mk_qreg "a" 1.

Definition all_bits (m : nat) : list Qubit :=
  reg_bits (reg_i m) ++ reg_bits (reg_j m) ++ reg_bits reg_a.

(** The gate that [_qc_block] makes of the inverse of the permutation
    ansatz [perm] on [m] qubits. *)
Definition perm_dg {S} (m : nat) (perm : Op S) : Op S :=
  OpGate (Some "PermAnsatzDg") m [(op_inverse perm, seq 0 m)].

(** The layer of Hadamard gates on the qubits [hq]. *)
Definition h_gates {S} (hq : list Qubit) : list (Op S * list Qubit) :=
  map (fun q => (OpH, [q])) hq.

(** The instructions that [ansatz] puts in front of the encoder of [adj1]
    when the shapes differ: the inverse on j, composed last, comes first. *)
Definition inverse_prepend {S} (gisom : bool) (m : nat) (perm : Op S)
  : list (Op S * list Qubit) :=
  if gisom then []
  else [(perm_dg m perm, reg_bits (reg_j m));
        (perm_dg m perm, reg_bits (reg_i m))].

(** The instructions of a list that carry a label. *)
Definition labelled {S} (l : string) (d : list (Op S * list Qubit))
  : list (Op S * list Qubit) :=
  filter (fun ins =>
            match op_label (fst ins) with
            | Some l' => String.eqb l l'
            | None => false
            end) d.

(** The adjacency matrix of the cycle 0-1, 1-2, 2-3, 3-0 and of one edge. *)
Definition cycle4 : ndarray Q :=
  mk_ndarray [4; 4]%nat
    [0; 1; 0; 1;
     1; 0; 1; 0;
     0; 1; 0; 1;
     1; 0; 1; 0]%Q.

Definition edge2 : ndarray Q :=
  mk_ndarray [2; 2]%nat [0; 1; 1; 0]%Q.

(** The error of a call on a plain array: the one of the generator for a
    negative seed, and otherwise the one of the read of [dkeys]. *)
Definition plain_array_error (seed : option Z) : exn :=
  match seed with
  | Some s => if (s <? 0)%Z then ValueError else UnboundLocalError
  | None => UnboundLocalError
  end.

(** Sorted by key, in the wide sense. *)
Definition key_sorted {B} (l : list (nat * B)) : Prop :=
  StronglySorted (fun x y => (fst x <= fst y)%nat) l.

(** A column with its rows exchanged. *)
Definition swap_pair (p : nat * nat) : nat * nat := (snd p, fst p).

(** The number of non-zero entries of a row. *)
Definition count_nonzero (row : list Z) : nat :=
  length (filter (fun x => negb (x =? 0)%Z) row).

(** The entry in row [i] and column [j] of a 2-d array. *)
Definition get2 {A} (a : ndarray A) (i j : nat) (d : A) : A :=
  nth (i * nth 1 (shape a) 0%nat + j) (data a) d.

(** The bit that [_adj_flatten_repr] makes of an entry: [round(x) != 0]. *)
Definition edge_bit (x : Q) : bool := negb (np_round x =? 0)%Z.

(** The number of pairs of a pre-defined topology over [n] qubits. *)
Definition edge_count (name : string) (n : nat) : nat :=
  if String.eqb name "circular" && (2 <? n)%nat then n else (n - 1)%nat.

(** The double of a natural number, as Python converts the [k] of
    [k * np.pi] (exact below 2^53). *)
Fixpoint float_of_nat (k : nat) : float :=
  match k with
  | O => 0%float
  | Datatypes.S k' => (float_of_nat k' + 1)%float
  end.

(** The doubles [k * np.pi] and [k * np.pi / 2]. *)
Definition pi_multiple (k : nat) : float :=
  (float_of_nat k * Binary64.np_pi)%float.

Definition half_pi_multiple (k : nat) : float :=
  (float_of_nat k * Binary64.np_pi / 2)%float.

(** The angle that a draw decides for a probability: pi when the draw is
    below the probability, and 0 otherwise. *)
Definition sampled_angle (draw prob : float) : float :=
  if (draw <? prob)%float then Binary64.np_pi else 0%float.

(** The [n] dicts that a stream of draws decides for a dict [d] of angles:
    the sample [i] gives to the key at position [j] the angle that the draw
    of number [i * len(d) + j] decides for the probability of the angle of
    that key. *)
Definition seeded_dicts {K} (draws : nat -> float) (d : list (K * float))
    (n : nat) : list (list (K * float)) :=
  map (fun i =>
         map (fun jkv =>
                (fst (snd jkv),
                 sampled_angle (draws (i * length d + fst jkv)%nat)
                               (Binary64.thetas_to_prob (snd (snd jkv)))))
             (enumerate d))
      (seq 0 n).

(** An angle that is exactly 0.0 or exactly [np.pi]. *)
Definition exact_angle (x : float) : Prop :=
  x = 0%float \/ x = Binary64.np_pi.

(** A seed that the generator takes: none, or an integer that is not
    negative. *)
Definition usable_seed (seed : option Z) : Prop :=
  match seed with Some s => (0 <= s)%Z | None => True end.

(** The number that seeds the stream: the seed, or without one the entropy
    of the operating system. *)
Definition stream_seed (entropy : Z) (seed : option Z) : Z :=
  match seed with Some s => s | None => entropy end.

(** A side length is an exact power of two: 1, 2, 4, ... *)
Definition power_of_two (n : nat) : Prop := exists k : nat, n = (2 ^ k)%nat.

(** * Properties of [_is_pow_2] *)

Lemma str_count_app c s t :
  str_count c (s ++ t)%string = (str_count c s + str_count c t)%nat.
Proof.
  induction s as [| d s IH]; simpl; [reflexivity | rewrite IH; lia].
Qed.

Lemma str_count_bits_pos p : (1 <= str_count "1"%char (bits_of_pos p))%nat.
Proof.
  induction p; simpl; rewrite ?str_count_app; simpl; lia.
Qed.

Lemma str_count_bits_one p :
  str_count "1"%char (bits_of_pos p) = 1%nat <->
  exists k : nat, Zpos p = (2 ^ Z.of_nat k)%Z.
Proof.
  induction p as [q IH | q IH |].
  - simpl. rewrite str_count_app. simpl. split.
    + pose proof (str_count_bits_pos q). lia.
    + intros [k Hk]. destruct k as [| k].
      * simpl in Hk. lia.
      * rewrite Nat2Z.inj_succ, Z.pow_succ_r in Hk by lia. lia.
  - simpl. rewrite str_count_app. simpl. rewrite Nat.add_0_r, IH. split.
    + intros [k Hk]. exists (S k).
      rewrite Nat2Z.inj_succ, Z.pow_succ_r by lia. lia.
    + intros [k Hk]. destruct k as [| k].
      * simpl in Hk. lia.
      * exists k. rewrite Nat2Z.inj_succ, Z.pow_succ_r in Hk by lia. lia.
  - simpl. split; [intros _; exists 0%nat; reflexivity | reflexivity].
Qed.

Lemma bin_count_pos p :
  str_count "1"%char (bin (Zpos p)) = str_count "1"%char (bits_of_pos p).
Proof. reflexivity. Qed.

Lemma bin_count_neg p :
  str_count "1"%char (bin (Zneg p)) = str_count "1"%char (bits_of_pos p).
Proof. reflexivity. Qed.

(** On every Python integer: the check holds exactly at 0 and at the
    integers whose absolute value is a power of two. *)
Lemma _is_pow_2_spec (v : Z) :
  _is_pow_2 v = true <-> v = 0%Z \/ exists k : nat, Z.abs v = (2 ^ Z.of_nat k)%Z.
Proof.
  unfold _is_pow_2. rewrite orb_true_iff, Nat.eqb_eq, Z.eqb_eq.
  destruct v as [| p | p].
  - simpl. split; [intros _; now left | intros _; now right].
  - rewrite bin_count_pos, str_count_bits_one. simpl. split.
    + intros [H | H]; [now right | lia].
    + intros [H | H]; [lia | now left].
  - rewrite bin_count_neg, str_count_bits_one. simpl. split.
    + intros [H | H]; [now right | lia].
    + intros [H | H]; [lia | now left].
Qed.

Lemma pow2_nat_Z (n k : nat) :
  Z.of_nat n = (2 ^ Z.of_nat k)%Z <-> n = (2 ^ k)%nat.
Proof.
  rewrite <- (Nat2Z.inj_iff n (2 ^ k)), Nat2Z.inj_pow. reflexivity.
Qed.

Lemma _is_pow_2_side (n : nat) :
  _is_pow_2 (Z.of_nat n) = true <-> n = 0%nat \/ power_of_two n.
Proof.
  rewrite _is_pow_2_spec, Z.abs_eq by lia. unfold power_of_two. split.
  - intros [H | [k H]]; [left; lia | right; exists k; now apply pow2_nat_Z].
  - intros [H | [k H]]; [left; lia | right; exists k; now apply pow2_nat_Z].
Qed.

(** * The matrix validation *)

Lemma power_of_two_pos n : power_of_two n -> (0 < n)%nat.
Proof.
  intros [k ->]. induction k; simpl; lia.
Qed.

Lemma validation_square {A} (mat : ndarray A) (v : nat) :
  shape mat = [v; v] ->
  _pow2_shaped_mat_validation mat =
    if _is_pow_2 (Z.of_nat v) then Ok mat else Err AssertionError.
Proof.
  intros Hs. unfold _pow2_shaped_mat_validation, ndim. rewrite Hs. simpl.
  rewrite Nat.eqb_refl. simpl.
  destruct (_is_pow_2 (Z.of_nat v)); reflexivity.
Qed.

Lemma validation_ok_inv {A} (mat m : ndarray A) :
  _pow2_shaped_mat_validation mat = Ok m ->
  m = mat /\ exists v, shape mat = [v; v] /\ _is_pow_2 (Z.of_nat v) = true.
Proof.
  unfold _pow2_shaped_mat_validation, ndim.
  destruct (shape mat) as [| a [| b [| c l]]] eqn:Hs; simpl; try discriminate.
  destruct (Nat.eqb_spec a b) as [-> |]; simpl; [| discriminate].
  destruct (_is_pow_2 (Z.of_nat b)) eqn:Hp; simpl; [| discriminate].
  intros [= <-]. split; [reflexivity |]. exists b. now split.
Qed.

(** C3, as the source has it: the side check accepts a side [v] exactly
    when [v] is 0 or a power of two (1 included), and the validation of a
    square matrix of side [v] returns the matrix in that case and raises an
    [AssertionError] for every other side. *)
Theorem pow2_validation_zero_or_power :
  forall (A : Type) (mat : ndarray A) (v : nat),
    shape mat = [v; v] ->
    (_is_pow_2 (Z.of_nat v) = true <-> v = 0%nat \/ power_of_two v) /\
    (v = 0%nat \/ power_of_two v -> _pow2_shaped_mat_validation mat = Ok mat) /\
    (~ (v = 0%nat \/ power_of_two v) ->
     _pow2_shaped_mat_validation mat = Err AssertionError).
Proof.
  intros A mat v Hs. pose proof (_is_pow_2_side v) as Hv.
  rewrite (validation_square mat v Hs).
  split; [exact Hv | split].
  - intros H. apply Hv in H. now rewrite H.
  - intros H. destruct (_is_pow_2 (Z.of_nat v)); [| reflexivity].
    exfalso. apply H, Hv. reflexivity.
Qed.

Lemma three_not_power_of_two : ~ (3 = 0 \/ power_of_two 3)%nat.
Proof.
  intros [H | [k H]]; [discriminate |].
  destruct k as [| [| k]]; simpl in H; lia.
Qed.

Lemma pow2_validation_zero_or_power_witness :
  _pow2_shaped_mat_validation (mk_ndarray [4; 4]%nat (repeat 0%Z 16))
    = Ok (mk_ndarray [4; 4]%nat (repeat 0%Z 16)) /\
  _pow2_shaped_mat_validation (mk_ndarray [3; 3]%nat (repeat 0%Z 9))
    = Err AssertionError.
Proof.
  split.
  - apply (pow2_validation_zero_or_power Z
             (mk_ndarray [4; 4]%nat (repeat 0%Z 16)) 4%nat eq_refl).
    right. exists 2%nat. reflexivity.
  - apply (pow2_validation_zero_or_power Z
             (mk_ndarray [3; 3]%nat (repeat 0%Z 9)) 3%nat eq_refl).
    exact three_not_power_of_two.
Defined.

(** C3, as the claim states it, fails on the side 0: the check accepts it,
    0 is no power of two, and the validation lets the empty square matrix
    through. *)
Lemma pow2_check_accepts_zero :
  _is_pow_2 0 = true /\
  ~ power_of_two 0 /\
  _pow2_shaped_mat_validation (mk_ndarray [0; 0]%nat (@nil Z))
    = Ok (mk_ndarray [0; 0]%nat (@nil Z)).
Proof.
  split; [reflexivity | split; [| reflexivity]].
  intros H. apply power_of_two_pos in H. lia.
Qed.

(** * The topology expansion *)

Lemma bind_ok {A B} (r : result A) (k : A -> result B) (b : B) :
  bind r k = Ok b -> exists a, r = Ok a /\ k a = Ok b.
Proof.
  destruct r as [a | e]; simpl; [| discriminate].
  intros H. now exists a.
Qed.

Lemma assert_ok (b : bool) (u : unit) : assert b = Ok u -> b = true.
Proof. destruct b; [reflexivity | discriminate]. Qed.

Ltac inv_bind H :=
  let a := fresh "a" in
  let Ha := fresh "Ha" in
  apply bind_ok in H; destruct H as (a & Ha & H).

Lemma mapM_ok_map {A B} (f : A -> result B) (g : A -> B) (l : list A) :
  (forall x, In x l -> f x = Ok (g x)) -> mapM f l = Ok (map g l).
Proof.
  induction l as [| x l IH]; intros H; simpl; [reflexivity |].
  rewrite (H x (or_introl eq_refl)). simpl.
  rewrite IH by (intros y Hy; apply H; now right). reflexivity.
Qed.

Lemma flat_map_ext_in {A B} (f g : A -> list B) (l : list A) :
  (forall x, In x l -> f x = g x) -> flat_map f l = flat_map g l.
Proof.
  induction l as [| x l IH]; intros H; simpl; [reflexivity |].
  rewrite (H x (or_introl eq_refl)), IH; [reflexivity |].
  intros y Hy. apply H. now right.
Qed.

Lemma map_flat_map {A B C} (h : B -> C) (f : A -> list B) (l : list A) :
  map h (flat_map f l) = flat_map (fun x => map h (f x)) l.
Proof.
  induction l as [| x l IH]; simpl; [reflexivity |].
  now rewrite map_app, IH.
Qed.

Lemma chunks_pairs {A B} (f g : A -> B) (l : list A) :
  chunks (length l) 2 (flat_map (fun k => [f k; g k]) l)
    = map (fun k => [f k; g k]) l.
Proof.
  induction l as [| x l IH]; simpl; [reflexivity | now rewrite IH].
Qed.

Lemma chunks_app {A} (n m c : nat) (l1 l2 : list A) :
  length l1 = (n * c)%nat ->
  chunks (n + m) c (l1 ++ l2) = chunks n c l1 ++ chunks m c l2.
Proof.
  revert l1. induction n as [| n IH]; intros l1 Hl; simpl.
  - destruct l1; [reflexivity | discriminate].
  - simpl in Hl.
    rewrite firstn_app, skipn_app.
    replace (c - length l1)%nat with 0%nat by lia.
    simpl. rewrite app_nil_r.
    rewrite IH by (rewrite length_skipn; lia). reflexivity.
Qed.

(** The index pairs of the pre-defined topologies, before the qubits of the
    register replace the indices. *)
Lemma arange_pairs (n : nat) :
  np_T (np_stack2 (np_arange (Z.of_nat n))
                  (map (fun k => (k + 1)%Z) (np_arange (Z.of_nat n))))
  = mk_ndarray [n; 2]%nat
      (flat_map (fun k => [Z.of_nat k; (Z.of_nat k + 1)%Z]) (seq 0 n)).
Proof.
  unfold np_T, np_stack2, np_arange. simpl.
  rewrite Nat2Z.id, length_map, length_seq. f_equal.
  apply flat_map_ext_in. intros j Hj. apply in_seq in Hj.
  rewrite Nat.add_0_r.
  rewrite nth_error_app1 by (rewrite length_map, length_seq; lia).
  rewrite nth_error_map, nth_error_seq.
  destruct (Nat.ltb_spec j n) as [_ | ?]; [| lia]. simpl.
  replace (n + j)%nat with (length (map Z.of_nat (seq 0 n)) + j)%nat
    by (rewrite length_map, length_seq; reflexivity).
  rewrite nth_error_app2 by lia.
  replace (length (map Z.of_nat (seq 0 n)) + j
           - length (map Z.of_nat (seq 0 n)))%nat with j by lia.
  rewrite !nth_error_map, nth_error_seq.
  destruct (Nat.ltb_spec j n) as [_ | ?]; [| lia]. reflexivity.
Qed.

Lemma py_index_nat {A} (l : list A) (k : nat) :
  py_index l (Z.of_nat k) = nth_error l k.
Proof.
  unfold py_index.
  destruct (Z.leb_spec 0 (Z.of_nat k)) as [_ | ?]; [| lia].
  now rewrite Nat2Z.id.
Qed.

Lemma qreg_getitem_nat (r : QuantumRegister) (k : nat) :
  (k < reg_size r)%nat -> qreg_getitem r (Z.of_nat k) = Ok (mk_qubit r k).
Proof.
  intros Hk. unfold qreg_getitem, reg_bits.
  rewrite py_index_nat, nth_error_map, nth_error_seq.
  destruct (Nat.ltb_spec k (reg_size r)) as [_ | ?]; [| lia]. reflexivity.
Qed.

Lemma map_qreg_in_range (r : QuantumRegister) (a : ndarray Z) :
  data a <> [] ->
  Forall (fun i => (0 <= i < Z.of_nat (reg_size r))%Z) (data a) ->
  _map_qreg a r = Ok (mk_ndarray (shape a) (map (qubit_of r) (data a))).
Proof.
  intros Hne Hall. unfold _map_qreg, np_vectorize.
  destruct (data a) as [| x l] eqn:Hd; [congruence |].
  rewrite (mapM_ok_map _ (qubit_of r)); [reflexivity |].
  intros i Hi. rewrite Forall_forall in Hall. specialize (Hall i Hi).
  unfold qubit_of. rewrite <- (Z2Nat.id i) at 1 by lia.
  apply qreg_getitem_nat. lia.
Qed.

Lemma expand_linear (r : QuantumRegister) :
  (2 <= reg_size r)%nat ->
  _expand_topology (TopoName "linear") r
  = Ok (mk_ndarray [(reg_size r - 1)%nat; 2%nat]
          (flat_map (fun k => [mk_qubit r k; mk_qubit r (S k)])
                    (seq 0 (reg_size r - 1)))).
Proof.
  intros HN. unfold _expand_topology. simpl.
  replace (Z.of_nat (reg_size r) - 1)%Z with (Z.of_nat (reg_size r - 1)) by lia.
  rewrite arange_pairs. simpl.
  rewrite map_qreg_in_range; simpl.
  - rewrite map_flat_map. f_equal. f_equal.
    apply flat_map_ext_in. intros k _. unfold qubit_of. simpl.
    rewrite Nat2Z.id.
    replace (Z.to_nat (Z.of_nat k + 1)) with (S k) by lia.
    reflexivity.
  - destruct (reg_size r - 1)%nat eqn:E; [lia | simpl; discriminate].
  - apply Forall_forall. intros i Hi. apply in_flat_map in Hi.
    destruct Hi as (k & Hk & Hi). apply in_seq in Hk.
    simpl in Hi. destruct Hi as [<- | [<- | []]]; lia.
Qed.

Lemma expand_circular_two (r : QuantumRegister) :
  reg_size r = 2%nat ->
  _expand_topology (TopoName "circular") r
  = _expand_topology (TopoName "linear") r.
Proof.
  intros HN. unfold _expand_topology. simpl. rewrite HN. reflexivity.
Qed.

Lemma expand_circular_wrap (r : QuantumRegister) :
  (2 < reg_size r)%nat ->
  _expand_topology (TopoName "circular") r
  = Ok (mk_ndarray [S (reg_size r - 1); 2%nat]
          (flat_map (fun k => [mk_qubit r k; mk_qubit r (S k)])
                    (seq 0 (reg_size r - 1))
           ++ [mk_qubit r (reg_size r - 1); mk_qubit r 0])).
Proof.
  intros HN. unfold _expand_topology. simpl.
  destruct (Nat.ltb_spec 2 (reg_size r)) as [_ | ?]; [| lia].
  replace (Z.of_nat (reg_size r) - 1)%Z with (Z.of_nat (reg_size r - 1)) by lia.
  rewrite arange_pairs. unfold np_concatenate0, len. simpl.
  rewrite map_qreg_in_range; simpl.
  - rewrite Nat.add_1_r. f_equal. f_equal.
    rewrite map_app, map_flat_map. f_equal.
    + apply flat_map_ext_in. intros k _. unfold qubit_of. simpl.
      rewrite Nat2Z.id.
      replace (Z.to_nat (Z.of_nat k + 1)) with (S k) by lia.
      reflexivity.
    + unfold qubit_of. simpl. now rewrite Nat2Z.id.
  - intros H. apply app_eq_nil in H. destruct H as [_ H]. discriminate.
  - apply Forall_app. split.
    + apply Forall_forall. intros i Hi. apply in_flat_map in Hi.
      destruct Hi as (k & Hk & Hi). apply in_seq in Hk.
      simpl in Hi. destruct Hi as [<- | [<- | []]]; lia.
    + repeat constructor; lia.
Qed.

(** C5: over a register of [N >= 2] qubits, the linear topology expands to
    exactly the [N - 1] pairs [(k, k + 1)] for [k] from 0 to [N - 2]; the
    circular topology expands to the same single pair when [N = 2], and to
    the pairs of the linear one followed by [(N - 1, 0)] when [N > 2]. *)
Theorem expand_topology_named :
  forall r : QuantumRegister,
    (2 <= reg_size r)%nat ->
    (exists a, _expand_topology (TopoName "linear") r = Ok a /\
               shape a = [(reg_size r - 1)%nat; 2%nat] /\
               rows_of a = linear_pairs r /\
               length (rows_of a) = (reg_size r - 1)%nat) /\
    (exists a, _expand_topology (TopoName "circular") r = Ok a /\
               rows_of a =
                 if (reg_size r =? 2)%nat then linear_pairs r
                 else linear_pairs r
                        ++ [[mk_qubit r (reg_size r - 1); mk_qubit r 0]]).
Proof.
  intros r HN.
  assert (Hrows :
    rows_of (mk_ndarray [(reg_size r - 1)%nat; 2%nat]
               (flat_map (fun k => [mk_qubit r k; mk_qubit r (S k)])
                         (seq 0 (reg_size r - 1)))) = linear_pairs r).
  { unfold rows_of, linear_pairs. simpl.
    pose proof (chunks_pairs (mk_qubit r) (fun k => mk_qubit r (S k))
                  (seq 0 (reg_size r - 1))) as Hc.
    rewrite length_seq in Hc. exact Hc. }
  split.
  - eexists. split; [apply expand_linear; exact HN |].
    split; [reflexivity | split; [exact Hrows |]].
    rewrite Hrows. unfold linear_pairs. now rewrite length_map, length_seq.
  - destruct (Nat.eqb_spec (reg_size r) 2) as [E | E].
    + eexists. split.
      * rewrite expand_circular_two by exact E. apply expand_linear. exact HN.
      * exact Hrows.
    + eexists. split; [apply expand_circular_wrap; lia |].
      unfold rows_of. simpl shape. cbv iota beta.
      replace (S (reg_size r - 1)) with ((reg_size r - 1) + 1)%nat by lia.
      simpl data.
      rewrite chunks_app.
      * f_equal. exact Hrows.
      * rewrite (flat_map_constant_length (c := 2)); [now rewrite length_seq |].
        intros; reflexivity.
Qed.

Lemma expand_topology_named_witness :
  (exists a, _expand_topology (TopoName "linear") (mk_qreg "r" 4) = Ok a /\
             shape a = [3; 2]%nat /\
             rows_of a = linear_pairs (mk_qreg "r" 4) /\
             length (rows_of a) = 3%nat) /\
  (exists a, _expand_topology (TopoName "circular") (mk_qreg "r" 4) = Ok a /\
             rows_of a = linear_pairs (mk_qreg "r" 4)
                           ++ [[mk_qubit (mk_qreg "r" 4) 3;
                                mk_qubit (mk_qreg "r" 4) 0]]).
Proof.
  apply (expand_topology_named (mk_qreg "r" 4)). simpl. lia.
Defined.

(** * The permutation ansatz *)

Section AnsatzProperties.

Context {S : Type}.
Variable of_parameter : Param -> S.

Lemma shape_two {A} (p : ndarray A) (e : nat) :
  ((ndim p =? 2)%nat && (nth 1 (shape p) 0 =? S4_BLOCK_PARCOUNT)%nat = true
   /\ (len p =? e)%nat = true)
  <-> shape p = [e; S4_BLOCK_PARCOUNT].
Proof.
  unfold ndim, len.
  destruct (shape p) as [| a [| b [| c l]]]; simpl; split;
    try (intros [H1 H2]; discriminate); try discriminate.
  - intros [H1 H2]. apply Nat.eqb_eq in H1, H2. congruence.
  - intros [= -> ->]. now rewrite !Nat.eqb_refl.
Qed.

(** C9: the parameter tensor that [s4_ansatz] returns has the shape
    (number of topology edges, 5); and when the topology expands to a number
    of edges and the caller's parameter tensor has another shape, [s4_ansatz]
    raises the [AssertionError] of its shape validation. *)
Theorem s4_ansatz_params_shape :
  forall (counter : nat) (topology : topology_spec)
         (qreg : QuantumRegister + nat) (params : option (ndarray S)),
    (forall qc p,
        s4_ansatz of_parameter counter topology qreg params = Ok (qc, p) ->
        exists edges,
          _expand_topology topology (register_of counter qreg) = Ok edges /\
          shape p = [len edges; 5%nat]) /\
    (forall edges p,
        _expand_topology topology (register_of counter qreg) = Ok edges ->
        params = Some p ->
        shape p <> [len edges; 5%nat] ->
        s4_ansatz of_parameter counter topology qreg params
          = Err AssertionError).
Proof.
  intros counter topology qreg params. split.
  - intros qc p H. unfold s4_ansatz in H. fold (register_of counter qreg) in H.
    inv_bind H. exists a. split; [exact Ha |].
    inv_bind H. apply assert_ok in Ha0.
    inv_bind H. apply assert_ok in Ha1.
    inv_bind H. inv_bind H. injection H as _ <-.
    apply shape_two. now split.
  - intros edges p He -> Hs. unfold s4_ansatz.
    fold (register_of counter qreg). rewrite He. simpl.
    destruct ((ndim p =? 2)%nat && (nth 1 (shape p) 0 =? S4_BLOCK_PARCOUNT)%nat)
      eqn:E1; simpl; [| reflexivity].
    destruct (len p =? len edges)%nat eqn:E2; simpl; [| reflexivity].
    exfalso. apply Hs. apply shape_two. now split.
Qed.

End AnsatzProperties.

Lemma s4_ansatz_params_shape_witness :
  (exists edges,
      _expand_topology (TopoName "circular") (register_of 0 (inr 3%nat))
        = Ok edges /\
      shape (params_tensor [3; 5]%nat "t") = [len edges; 5%nat]) /\
  s4_ansatz (fun x => x) 0 (TopoName "circular") (inr 3%nat)
    (Some (params_tensor [2; 5]%nat "u")) = Err AssertionError.
Proof.
  split.
  - eapply (proj1 (s4_ansatz_params_shape (fun x => x) 0 (TopoName "circular")
                     (inr 3%nat) None)).
    vm_compute. reflexivity.
  - eapply (proj2 (s4_ansatz_params_shape (fun x => x) 0 (TopoName "circular")
                     (inr 3%nat) (Some (params_tensor [2; 5]%nat "u")))).
    + vm_compute. reflexivity.
    + reflexivity.
    + vm_compute. discriminate.
Defined.

(** * Circuits *)

Lemma qreg_eqb_eq (r s : QuantumRegister) : qreg_eqb r s = true <-> r = s.
Proof.
  unfold qreg_eqb. rewrite andb_true_iff, String.eqb_eq, Nat.eqb_eq.
  destruct r, s; simpl. split; [intros [-> ->]; reflexivity | intros [= -> ->]; now split].
Qed.

Lemma qubit_eqb_eq (p q : Qubit) : qubit_eqb p q = true <-> p = q.
Proof.
  unfold qubit_eqb. rewrite andb_true_iff, qreg_eqb_eq, Nat.eqb_eq.
  destruct p, q; simpl. split; [intros [-> ->]; reflexivity | intros [= -> ->]; now split].
Qed.

Lemma qubit_eqb_refl (q : Qubit) : qubit_eqb q q = true.
Proof. now apply qubit_eqb_eq. Qed.

Lemma qubit_eqb_neq (p q : Qubit) : p <> q -> qubit_eqb p q = false.
Proof.
  intros H. destruct (qubit_eqb p q) eqn:E; [| reflexivity].
  apply qubit_eqb_eq in E. contradiction.
Qed.

Lemma length_reg_bits (r : QuantumRegister) : length (reg_bits r) = reg_size r.
Proof. unfold reg_bits. now rewrite length_map, length_seq. Qed.

Lemma firstn_reg_bits (r : QuantumRegister) :
  firstn (reg_size r) (reg_bits r) = reg_bits r.
Proof.
  rewrite <- (length_reg_bits r) at 1. apply firstn_all.
Qed.

Lemma NoDup_reg_bits (r : QuantumRegister) : NoDup (reg_bits r).
Proof.
  unfold reg_bits. apply Finite.Injective_map_NoDup; [| apply seq_NoDup].
  intros x y [= H]. exact H.
Qed.

Lemma index_of_NoDup (l tl : list Qubit) :
  NoDup l -> map (fun q => index_of q (l ++ tl)) l = seq 0 (length l).
Proof.
  induction 1 as [| a l Hin Hnd IH]; simpl; [reflexivity |].
  rewrite qubit_eqb_refl. f_equal.
  rewrite <- seq_shift, <- IH, map_map.
  apply map_ext_in. intros q Hq.
  rewrite qubit_eqb_neq; [reflexivity |]. intros ->. contradiction.
Qed.

Lemma remap_NoDup (l tl l' : list Qubit) :
  NoDup l -> length l = length l' -> map (remap (l ++ tl) l') l = l'.
Proof.
  intros Hnd. revert l'.
  induction Hnd as [| a l Hin Hnd IH]; intros l' Hlen.
  - destruct l'; [reflexivity | discriminate].
  - destruct l' as [| b l']; [discriminate |]. simpl.
    unfold remap at 1. simpl. rewrite qubit_eqb_refl. simpl. f_equal.
    rewrite <- (IH l') at 2 by (simpl in Hlen; lia).
    apply map_ext_in. intros q Hq. unfold remap. simpl.
    rewrite qubit_eqb_neq; [reflexivity |]. intros ->. contradiction.
Qed.

Lemma remap_same (l : list Qubit) (q : Qubit) : remap l l q = q.
Proof.
  unfold remap. induction l as [| p l IH]; simpl; [reflexivity |].
  destruct (qubit_eqb p q) eqn:E; simpl; [| exact IH].
  now apply qubit_eqb_eq in E.
Qed.

Section CircuitProperties.

Context {S : Type}.
Variable of_parameter : Param -> S.

Lemma remap_same_data (l : list Qubit) (d : list (Op S * list Qubit)) :
  map (fun ins => let '(o, qs) := ins in (o, map (remap l l) qs)) d = d.
Proof.
  induction d as [| [o qs] d IH]; simpl; [reflexivity |].
  rewrite IH. f_equal. f_equal.
  rewrite <- (map_id qs) at 2. apply map_ext. apply remap_same.
Qed.

(** Composing a circuit over the same registers keeps the qubits. *)
Lemma compose_same_regs (self other : QuantumCircuit S) (front : bool) :
  qregs other = qregs self ->
  compose self other None front
  = Ok (mk_qc (qregs self)
          (if front then qc_data other ++ qc_data self
           else qc_data self ++ qc_data other)).
Proof.
  intros Hr. unfold compose, num_qubits, qubits. rewrite Hr.
  rewrite Nat.ltb_irrefl. simpl. rewrite firstn_all, remap_same_data.
  reflexivity.
Qed.

Lemma qubits_one_reg (r : QuantumRegister) (d : list (Op S * list Qubit)) :
  qubits (mk_qc [r] d) = reg_bits r.
Proof. unfold qubits. simpl. apply app_nil_r. Qed.

Lemma num_qubits_one_reg (r : QuantumRegister) (d : list (Op S * list Qubit)) :
  num_qubits (mk_qc [r] d) = reg_size r.
Proof. unfold num_qubits. now rewrite qubits_one_reg, length_reg_bits. Qed.

(** Composing a one-gate circuit over a register onto a register of the
    same size. *)
Lemma compose_onto_reg (self : QuantumCircuit S) (g : Op S)
    (r r' : QuantumRegister) (front : bool) :
  reg_size r' = reg_size r ->
  (reg_size r <= num_qubits self)%nat ->
  compose self (mk_qc [r] [(g, reg_bits r)]) (Some (reg_bits r')) front
  = Ok (mk_qc (qregs self)
          (if front then (g, reg_bits r') :: qc_data self
           else qc_data self ++ [(g, reg_bits r')])).
Proof.
  intros Hs Hle. unfold compose.
  rewrite num_qubits_one_reg, qubits_one_reg, length_reg_bits.
  destruct (Nat.ltb_spec (num_qubits self) (reg_size r)) as [? | _]; [lia |].
  rewrite Hs, Nat.eqb_refl. simpl.
  pose proof (remap_NoDup (reg_bits r) [] (reg_bits r') (NoDup_reg_bits r)) as Hm.
  rewrite app_nil_r in Hm. rewrite Hm by (rewrite !length_reg_bits; lia).
  reflexivity.
Qed.

Lemma s4_blocks_qregs (pairs : list (list S * list Qubit))
    (qc qc' : QuantumCircuit S) :
  s4_blocks qc pairs = Ok qc' -> qregs qc' = qregs qc.
Proof.
  revert qc. induction pairs as [| [v q] tl IH]; intros qc H; simpl in H.
  - now injection H as <-.
  - inv_bind H. inv_bind H. apply IH in H. rewrite H.
    unfold compose in Ha0.
    destruct (num_qubits qc <? num_qubits a)%nat; [discriminate |].
    inv_bind Ha0. now injection Ha0 as <-.
Qed.

(** What [s4_ansatz] returns on a register: one gate labelled PermAnsatz
    on the whole register. *)
Lemma s4_ansatz_circuit (counter : nat) (topology : topology_spec)
    (r : QuantumRegister) (params : option (ndarray S))
    (qc : QuantumCircuit S) (p : ndarray S) :
  s4_ansatz of_parameter counter topology (inl r) params = Ok (qc, p) ->
  exists defn,
    qc = mk_qc [r] [(OpGate (Some "PermAnsatz") (reg_size r) defn, reg_bits r)].
Proof.
  unfold s4_ansatz. intros H.
  inv_bind H. inv_bind H. inv_bind H. inv_bind H.
  apply s4_blocks_qregs in Ha2. simpl in Ha2.
  inv_bind H. injection H as <- _.
  destruct a2 as [regs d2]. simpl in Ha2. subst regs.
  unfold compose_gate, to_gate, new_circuit in Ha3. cbn [op_num_qubits] in Ha3.
  rewrite num_qubits_one_reg, !qubits_one_reg, firstn_reg_bits in Ha3.
  rewrite length_reg_bits, Nat.eqb_refl in Ha3.
  injection Ha3 as <-. eexists. reflexivity.
Qed.

(** [_qc_block] of the inverse of such a circuit. *)
Lemma qc_block_inverse (r : QuantumRegister) (perm : Op S) :
  _qc_block (inverse (mk_qc [r] [(perm, reg_bits r)])) (Some "PermAnsatzDg")
  = Ok (mk_qc [r] [(perm_dg (reg_size r) perm, reg_bits r)]).
Proof.
  unfold _qc_block, inverse, compose_gate, to_gate, new_circuit.
  cbn [op_num_qubits qregs qc_data map rev app].
  rewrite num_qubits_one_reg, !qubits_one_reg, firstn_reg_bits.
  rewrite length_reg_bits, Nat.eqb_refl.
  pose proof (index_of_NoDup (reg_bits r) [] (NoDup_reg_bits r)) as Hi.
  rewrite app_nil_r in Hi. rewrite Hi, length_reg_bits. reflexivity.
Qed.

Lemma circ_qregs_inv (n : nat) (i j a : QuantumRegister) :
  _circ_qregs n = Ok (i, j, a) ->
  exists m, n = (2 * m + 1)%nat /\ i = reg_i m /\ j = reg_j m /\ a = reg_a.
Proof.
  unfold _circ_qregs. destruct (Nat.eqb_spec ((n + 1) mod 2) 0) as [E | E];
    simpl; [| discriminate].
  intros [= <- <- <-]. exists ((n - 1) / 2)%nat. repeat split.
  pose proof (Nat.div_mod_eq (n + 1) 2) as H1.
  pose proof (Nat.div_mod_eq (n - 1) 2) as H2.
  pose proof (Nat.mod_upper_bound (n - 1) 2 ltac:(lia)) as H3.
  assert (Hn : (n + 1 = 2 + (n - 1))%nat \/ n = 0%nat) by lia.
  destruct Hn as [Hn | ->]; [| simpl in E; discriminate].
  lia.
Qed.

Lemma circ_qregs_odd (m : nat) :
  _circ_qregs (2 * m + 1) = Ok (reg_i m, reg_j m, reg_a).
Proof.
  unfold _circ_qregs.
  replace ((2 * m + 1 + 1) mod 2)%nat with 0%nat.
  - simpl assert. cbv beta iota. unfold bind.
    replace ((2 * m + 1 - 1) / 2)%nat with m; [reflexivity |].
    replace (2 * m + 1 - 1)%nat with (m * 2)%nat by lia.
    now rewrite Nat.div_mul.
  - replace (2 * m + 1 + 1)%nat with ((m + 1) * 2)%nat by lia.
    now rewrite Nat.Div0.mod_mul.
Qed.

Lemma num_qubits_ija (m : nat) (d : list (Op S * list Qubit)) :
  num_qubits (mk_qc [reg_i m; reg_j m; reg_a] d) = (2 * m + 1)%nat.
Proof.
  unfold num_qubits, qubits. simpl.
  rewrite !length_app, !length_reg_bits. simpl. lia.
Qed.

Lemma num_qubits_regs (qc : QuantumCircuit S) (m : nat) :
  qregs qc = [reg_i m; reg_j m; reg_a] -> num_qubits qc = (2 * m + 1)%nat.
Proof.
  destruct qc as [regs d]. simpl. intros ->. apply num_qubits_ija.
Qed.

(** What [_adj_flatten_repr] returns: one gate labelled QAdj over the three
    registers. *)
Lemma adj_flatten_repr_circuit (adj : ndarray Q) (shp : option (list nat))
    (qc : QuantumCircuit S) :
  _adj_flatten_repr adj shp = Ok qc ->
  exists m g,
    op_label g = Some "QAdj" /\
    qc = mk_qc [reg_i m; reg_j m; reg_a] [(g, all_bits m)].
Proof.
  unfold _adj_flatten_repr. intros H.
  inv_bind H. inv_bind H. inv_bind H. inv_bind H. inv_bind H.
  destruct a3 as [[i j] ra]. cbv beta iota in H.
  inv_bind H.
  apply circ_qregs_inv in Ha3. destruct Ha3 as (m & Hm & -> & -> & ->).
  unfold _circ_qregs_as_qubits in Ha4. rewrite Hm, circ_qregs_odd in Ha4.
  simpl in Ha4. injection Ha4 as <-.
  unfold compose_gate in H.
  destruct (_ =? _)%nat in H; [| discriminate].
  injection H as <-. exists m. eexists. split; [| reflexivity]. reflexivity.
Qed.

(** A layer of Hadamard gates on qubits. *)
Lemma qc_h_bits (qc qc' : QuantumCircuit S) (qs : list Qubit) :
  qc_h qc (QBits qs) = Ok qc' ->
  qc' = mk_qc (qregs qc) (qc_data qc ++ map (fun q => (OpH, [q])) qs).
Proof.
  unfold qc_h, append1. simpl. destruct qs; [discriminate |].
  now intros [= <-].
Qed.

End CircuitProperties.

(** * The assembled circuit *)

Section AssemblerProperties.

Context {S : Type}.
Variable of_parameter : Param -> S.

(** The instructions of the circuit that [ansatz] returns, in order: the
    Hadamard layer, the two inverses of the permutation ansatz when the
    shapes differ, the encoder of [adj1], the permutation ansatz on i and on
    j, the encoder of [adj2], the Hadamard layer. *)
Lemma ansatz_layout (adj1 adj2 : ndarray Q) (topology : topology_spec)
    (qc : QuantumCircuit S) (params : ndarray S) :
  ansatz of_parameter adj1 adj2 topology = Ok (qc, params) ->
  exists m hq perm q1 q2 qs2,
    op_label perm = Some "PermAnsatz" /\
    op_label q1 = Some "QAdj" /\
    op_label q2 = Some "QAdj" /\
    qregs qc = [reg_i m; reg_j m; reg_a] /\
    qc_data qc =
      h_gates hq
      ++ inverse_prepend (shape_eqb (shape adj1) (shape adj2)) m perm
      ++ [(q1, all_bits m);
          (perm, reg_bits (reg_i m));
          (perm, reg_bits (reg_j m));
          (q2, qs2)]
      ++ h_gates hq.
Proof.
  unfold ansatz. intros H.
  inv_bind H. apply validation_ok_inv in Ha. destruct Ha as [-> _].
  inv_bind H. apply validation_ok_inv in Ha. destruct Ha as [-> _].
  inv_bind H. clear Ha a.
  inv_bind H. apply adj_flatten_repr_circuit in Ha.
  destruct Ha as (m & q1 & Hq1 & ->).
  inv_bind H. rewrite num_qubits_ija, circ_qregs_odd in Ha.
  injection Ha as <-. cbv beta iota in H.
  inv_bind H. clear Ha.
  inv_bind H. apply qc_h_bits in Ha. subst a0.
  inv_bind H. apply qc_h_bits in Ha. subst a0.
  inv_bind H. apply qc_h_bits in Ha. subst a0.
  cbn [qregs qc_data new_circuit app] in H.
  inv_bind H. destruct a0 as [perm_qc prm].
  apply s4_ansatz_circuit in Ha. destruct Ha as (defn & ->).
  cbv beta iota in H.
  set (perm := OpGate (Some "PermAnsatz") (reg_size (reg_i m)) defn) in *.
  set (hl := (map (fun q : Qubit => (@OpH S, [q])) (firstn a (reg_bits (reg_i m)))
              ++ map (fun q : Qubit => (OpH, [q])) (firstn a (reg_bits (reg_j m))))
             ++ map (fun q : Qubit => (OpH, [q])) (reg_bits reg_a)) in *.
  assert (Hhl : exists hq, hl = h_gates hq).
  { exists ((firstn a (reg_bits (reg_i m)) ++ firstn a (reg_bits (reg_j m)))
            ++ reg_bits reg_a).
    unfold h_gates, hl. now rewrite !map_app. }
  destruct Hhl as (hq & Hhl).
  assert (Hfit : forall qc0 : QuantumCircuit S,
             qregs qc0 = [reg_i m; reg_j m; reg_a] ->
             (reg_size (reg_i m) <= num_qubits qc0)%nat).
  { intros qc0 Hq0. rewrite (num_qubits_regs qc0 m Hq0). simpl. lia. }
  inv_bind H.
  assert (Hpre : qregs a0 = [reg_i m; reg_j m; reg_a] /\
                 qc_data a0 =
                   inverse_prepend (shape_eqb (shape adj1) (shape adj2)) m perm
                   ++ [(q1, all_bits m)]).
  { destruct (shape_eqb (shape adj1) (shape adj2)); cbn [negb] in Ha.
    - injection Ha as <-. split; reflexivity.
    - rewrite (qc_block_inverse (reg_i m) perm) in Ha. cbn [bind] in Ha.
      rewrite (compose_onto_reg _ _ (reg_i m) (reg_i m)) in Ha
        by (try reflexivity; now apply Hfit).
      cbn [bind] in Ha.
      rewrite (compose_onto_reg _ _ (reg_i m) (reg_j m)) in Ha
        by (try reflexivity; now apply Hfit).
      injection Ha as <-. split; reflexivity. }
  destruct Hpre as (Hr0 & Hd0).
  rewrite compose_same_regs in H by (now rewrite Hr0).
  cbn [bind qregs qc_data] in H.
  rewrite (compose_onto_reg _ _ (reg_i m) (reg_i m)) in H
    by (try reflexivity; now apply Hfit).
  cbn [bind qregs qc_data] in H.
  rewrite (compose_onto_reg _ _ (reg_i m) (reg_j m)) in H
    by (try reflexivity; now apply Hfit).
  cbn [bind qregs qc_data] in H.
  inv_bind H. apply adj_flatten_repr_circuit in Ha0.
  destruct Ha0 as (m' & q2 & Hq2 & ->).
  inv_bind H. unfold compose in Ha0.
  destruct (_ <? _)%nat in Ha0; [discriminate |].
  cbn [bind qregs qc_data map] in Ha0. injection Ha0 as <-.
  rewrite compose_same_regs in H by (cbn [qregs]; now rewrite Hr0).
  cbn [bind qregs qc_data] in H. injection H as <- <-.
  exists m, hq, perm, q1, q2. eexists.
  split; [reflexivity | split; [exact Hq1 | split; [exact Hq2 |]]].
  cbn [qregs qc_data]. split; [exact Hr0 |].
  rewrite Hd0, Hhl. rewrite <- !app_assoc. reflexivity.
Qed.

Lemma labelled_app (l : string) (d1 d2 : list (Op S * list Qubit)) :
  labelled l (d1 ++ d2) = labelled l d1 ++ labelled l d2.
Proof. apply filter_app. Qed.

Lemma labelled_h_gates (l : string) (hq : list Qubit) :
  labelled l (@h_gates S hq) = [].
Proof.
  induction hq as [| q hq IH]; simpl; [reflexivity | exact IH].
Qed.

Lemma shape_eqb_eq (s t : list nat) : shape_eqb s t = true <-> s = t.
Proof.
  unfold shape_eqb. destruct (list_eq_dec Nat.eq_dec s t); split;
    congruence.
Qed.

(** C4: in every circuit that [ansatz] returns, the inverse of the
    permutation ansatz stands in front of the encoder of [adj1], once on the
    register j and once on the register i, when the shapes of [adj1] and
    [adj2] differ, and nothing stands there when the shapes are equal; so
    the circuit has two instructions labelled PermAnsatzDg if and only if
    the shapes differ, and none if and only if they are equal. *)
Theorem ansatz_inverse_prepend_iff :
  forall (adj1 adj2 : ndarray Q) (topology : topology_spec)
         (qc : QuantumCircuit S) (params : ndarray S),
    ansatz of_parameter adj1 adj2 topology = Ok (qc, params) ->
    (exists m hq perm q1 q2 qs2,
        op_label perm = Some "PermAnsatz" /\
        op_label q1 = Some "QAdj" /\
        op_label q2 = Some "QAdj" /\
        qc_data qc =
          h_gates hq
          ++ (if shape_eqb (shape adj1) (shape adj2) then []
              else [(perm_dg m perm, reg_bits (reg_j m));
                    (perm_dg m perm, reg_bits (reg_i m))])
          ++ [(q1, all_bits m);
              (perm, reg_bits (reg_i m));
              (perm, reg_bits (reg_j m));
              (q2, qs2)]
          ++ h_gates hq) /\
    (shape adj1 <> shape adj2 <-> count_label "PermAnsatzDg" qc = 2%nat) /\
    (shape adj1 = shape adj2 <-> count_label "PermAnsatzDg" qc = 0%nat).
Proof.
  intros adj1 adj2 topology qc params H.
  apply ansatz_layout in H.
  destruct H as (m & hq & perm & q1 & q2 & qs2 & Hp & Hq1 & Hq2 & _ & Hd).
  split.
  - exists m, hq, perm, q1, q2, qs2. repeat split; assumption.
  - assert (Hc : count_label "PermAnsatzDg" qc =
                 if shape_eqb (shape adj1) (shape adj2) then 0%nat else 2%nat).
    { unfold count_label. fold (labelled "PermAnsatzDg" (qc_data qc)).
      rewrite Hd, !labelled_app, !labelled_h_gates, app_nil_r.
      cbn [app]. unfold labelled at 2. cbn [filter fst].
      rewrite Hp, Hq1, Hq2. cbn [String.eqb Ascii.eqb Bool.eqb]. simpl length.
      rewrite app_nil_r.
      destruct (shape_eqb (shape adj1) (shape adj2)); reflexivity. }
    rewrite Hc. pose proof (shape_eqb_eq (shape adj1) (shape adj2)) as He.
    destruct (shape_eqb (shape adj1) (shape adj2)); split; split;
      try congruence; try discriminate.
    + intros Hne. exfalso. apply Hne, He. reflexivity.
    + intros _. apply He. reflexivity.
    + intros _ Heq. apply He in Heq. discriminate.
    + intros Heq. apply He in Heq. discriminate.
Qed.

End AssemblerProperties.

Lemma ansatz_inverse_prepend_iff_witness :
  (exists qc params,
      ansatz (fun x => x) cycle4 edge2 (TopoName "circular") = Ok (qc, params) /\
      (shape cycle4 <> shape edge2 <-> count_label "PermAnsatzDg" qc = 2%nat)) /\
  (exists qc params,
      ansatz (fun x => x) cycle4 cycle4 (TopoName "linear") = Ok (qc, params) /\
      (shape cycle4 = shape cycle4 <-> count_label "PermAnsatzDg" qc = 0%nat)).
Proof.
  split.
  - destruct (ansatz (fun x => x) cycle4 edge2 (TopoName "circular"))
      as [[qc params] | e] eqn:E.
    + exists qc, params. split; [reflexivity |].
      apply (ansatz_inverse_prepend_iff (fun x => x) cycle4 edge2
               (TopoName "circular") qc params E).
    + vm_compute in E. discriminate.
  - destruct (ansatz (fun x => x) cycle4 cycle4 (TopoName "linear"))
      as [[qc params] | e] eqn:E.
    + exists qc, params. split; [reflexivity |].
      apply (ansatz_inverse_prepend_iff (fun x => x) cycle4 cycle4
               (TopoName "linear") qc params E).
    + vm_compute in E. discriminate.
Defined.

(** C8: on the adjacency matrix of the cycle on 4 vertices and the one of a
    single edge, with the circular topology, [ansatz] returns a circuit: the
    shapes differ, the two inverses of the permutation ansatz are in it, and
    the circuit has 2 * log2(4) + 1 = 5 qubits, in the registers i and j of
    2 qubits and the register a of one. *)
Theorem ansatz_cycle4_edge2 :
  exists qc params,
    ansatz (fun x => x) cycle4 edge2 (TopoName "circular") = Ok (qc, params) /\
    shape_eqb (shape cycle4) (shape edge2) = false /\
    count_label "PermAnsatzDg" qc = 2%nat /\
    qregs qc = [reg_i 2; reg_j 2; reg_a] /\
    num_qubits qc = (2 * Nat.log2 4 + 1)%nat /\
    num_qubits qc = 5%nat.
Proof.
  eexists. eexists. split; [vm_compute; reflexivity |].
  vm_compute. repeat split.
Qed.

(** * The angle post-processing *)

Local Open Scope R_scope.

Lemma Int_part_IZR (z : Z) : Int_part (IZR z) = z.
Proof.
  symmetry. apply Int_part_spec. lra.
Qed.

Lemma Int_part_IZR_half (z : Z) : Int_part (IZR z + / 2) = z.
Proof.
  symmetry. apply Int_part_spec. lra.
Qed.

Lemma Z_mod_2_cases (z : Z) : (z mod 2 = 0 \/ z mod 2 = 1)%Z.
Proof.
  pose proof (Z.mod_pos_bound z 2 ltac:(lia)). lia.
Qed.

Lemma np_mod_IZR_2 (z : Z) : np_mod (IZR z) 2 = IZR (z mod 2).
Proof.
  unfold np_mod.
  assert (Hq : Int_part (IZR z / 2) = (z / 2)%Z).
  { symmetry. apply Int_part_spec.
    pose proof (Z.div_mod z 2 ltac:(lia)) as Hdm.
    pose proof (Z.mod_pos_bound z 2 ltac:(lia)) as Hb.
    assert (Hz : IZR z = 2 * IZR (z / 2) + IZR (z mod 2)).
    { rewrite Hdm at 1. rewrite plus_IZR, mult_IZR. reflexivity. }
    assert (H0 : 0 <= IZR (z mod 2)) by (apply IZR_le; lia).
    assert (H1 : IZR (z mod 2) <= 1) by (apply IZR_le; lia).
    lra. }
  rewrite Hq.
  pose proof (Z.div_mod z 2 ltac:(lia)) as Hdm.
  assert (Hz : IZR z = 2 * IZR (z / 2) + IZR (z mod 2)).
  { rewrite Hdm at 1. rewrite plus_IZR, mult_IZR. reflexivity. }
  lra.
Qed.

(** The function in closed form: with [y = |x / pi|], the distance of the
    fractional part of [y] from the parity of its integral part. *)
Lemma thetas_to_prob_closed (x : R) :
  thetas_to_prob x =
  Rabs (Rabs (x / PI) - IZR (Int_part (Rabs (x / PI)))
        - IZR (Int_part (Rabs (x / PI)) mod 2)).
Proof.
  unfold thetas_to_prob, np_modf, Rtrunc. cbn [fst snd].
  destruct (Rle_dec 0 (Rabs (x / PI))) as [_ | Hn].
  - now rewrite np_mod_IZR_2.
  - exfalso. apply Hn, Rabs_pos.
Qed.

Lemma thetas_to_prob_bounds (x : R) : 0 <= thetas_to_prob x <= 1.
Proof.
  rewrite thetas_to_prob_closed. split; [apply Rabs_pos |].
  set (y := Rabs (x / PI)).
  destruct (base_Int_part y) as [Hlo Hhi].
  apply Rabs_le.
  destruct (Z_mod_2_cases (Int_part y)) as [-> | ->]; lra.
Qed.

(** At an integer multiple [k * pi]: the parity of [k]. *)
Lemma thetas_to_prob_multiple (k : Z) :
  thetas_to_prob (IZR k * PI) = IZR (Z.abs k mod 2).
Proof.
  rewrite thetas_to_prob_closed.
  replace (IZR k * PI / PI) with (IZR k) by (field; apply PI_neq0).
  rewrite <- abs_IZR, Int_part_IZR.
  replace (IZR (Z.abs k) - IZR (Z.abs k) - IZR (Z.abs k mod 2))
    with (- IZR (Z.abs k mod 2)) by ring.
  rewrite Rabs_Ropp. apply Rabs_pos_eq. apply IZR_le.
  pose proof (Z.mod_pos_bound (Z.abs k) 2 ltac:(lia)). lia.
Qed.

(** At an odd multiple [(2 k + 1) * pi / 2] of a half of pi: one half. *)
Lemma thetas_to_prob_half_multiple (k : Z) :
  thetas_to_prob (IZR (2 * k + 1) * (PI / 2)) = / 2.
Proof.
  rewrite thetas_to_prob_closed.
  replace (IZR (2 * k + 1) * (PI / 2) / PI) with (IZR k + / 2)
    by (rewrite plus_IZR, mult_IZR; field; apply PI_neq0).
  assert (Hy : exists z : Z, Rabs (IZR k + / 2) = IZR z + / 2).
  { destruct (Z_lt_le_dec k 0) as [Hk | Hk].
    - exists (- k - 1)%Z. rewrite Rabs_left.
      + rewrite minus_IZR, opp_IZR. lra.
      + assert (IZR k <= -1) by (apply IZR_le; lia). lra.
    - exists k. apply Rabs_pos_eq.
      assert (0 <= IZR k) by (apply IZR_le; lia). lra. }
  destruct Hy as (z & ->). rewrite Int_part_IZR_half.
  destruct (Z_mod_2_cases z) as [-> | ->].
  - replace (IZR z + / 2 - IZR z - 0) with (/ 2) by ring.
    apply Rabs_pos_eq. lra.
  - replace (IZR z + / 2 - IZR z - 1) with (- / 2) by lra.
    rewrite Rabs_Ropp. apply Rabs_pos_eq. lra.
Qed.

(** C2, as the claim states it, fails: at the multiple pi of pi the value
    is 1 and not 0, and at the odd multiple pi/2 of pi/2 the value is one
    half and not 1; the doubles of NumPy give these very values. *)
Lemma thetas_to_prob_not_zero_at_pi :
  thetas_to_prob PI = 1 /\
  thetas_to_prob PI <> 0 /\
  thetas_to_prob (PI / 2) = / 2 /\
  thetas_to_prob (PI / 2) <> 1 /\
  Binary64.thetas_to_prob Binary64.np_pi = 1%float /\
  Binary64.thetas_to_prob (Binary64.np_pi / 2) = 0.5%float.
Proof.
  assert (H1 : thetas_to_prob PI = 1).
  { replace PI with (IZR 1 * PI) at 1 by ring.
    rewrite thetas_to_prob_multiple. reflexivity. }
  assert (H2 : thetas_to_prob (PI / 2) = / 2).
  { replace (PI / 2) with (IZR (2 * 0 + 1) * (PI / 2)) by (simpl; ring).
    apply thetas_to_prob_half_multiple. }
  rewrite H1, H2. repeat split; try lra; vm_compute; reflexivity.
Qed.

(** C2, as the program has it on the doubles of NumPy: the value is exactly
    0 at the even and exactly 1 at the odd multiples [k * np.pi] of pi, for
    every [k] up to 10, and exactly one half at the odd multiples
    [(2 k + 1) * np.pi / 2] of a half of pi up to [9 * np.pi / 2], for
    either sign of the angle.  Further on the quotient by [np.pi] is not
    always a whole or a half number, and the value is only close to these:
    at [11 * np.pi] it is below 1, at [22 * np.pi] above 0 and at
    [11 * np.pi / 2] above one half. *)
Theorem thetas_to_prob_exact_doubles :
  (forall k : nat, (k <= 10)%nat ->
     Binary64.thetas_to_prob (pi_multiple k) = float_of_nat (k mod 2) /\
     Binary64.thetas_to_prob (PrimFloat.opp (pi_multiple k))
       = float_of_nat (k mod 2)) /\
  (forall k : nat, (k <= 4)%nat ->
     Binary64.thetas_to_prob (half_pi_multiple (2 * k + 1)) = 0.5%float /\
     Binary64.thetas_to_prob (PrimFloat.opp (half_pi_multiple (2 * k + 1)))
       = 0.5%float) /\
  Binary64.thetas_to_prob (pi_multiple 11) = 0x1.ffffffffffffp-1%float /\
  Binary64.thetas_to_prob (pi_multiple 11) <> 1%float /\
  Binary64.thetas_to_prob (pi_multiple 22) = 0x1p-48%float /\
  Binary64.thetas_to_prob (pi_multiple 22) <> 0%float /\
  Binary64.thetas_to_prob (half_pi_multiple 11) = 0x1.0000000000008p-1%float /\
  Binary64.thetas_to_prob (half_pi_multiple 11) <> 0.5%float.
Proof.
  split; [| split].
  - intros k Hk.
    do 11 (destruct k as [| k]; [split; vm_compute; reflexivity |]).
    exfalso. lia.
  - intros k Hk.
    do 5 (destruct k as [| k]; [split; vm_compute; reflexivity |]).
    exfalso. lia.
  - repeat split; try (vm_compute; reflexivity); intros H;
      match type of H with
      | _ = ?y => apply (f_equal (fun z => PrimFloat.Leibniz.eqb z y)) in H
      end;
      vm_compute in H; discriminate.
Qed.

Lemma thetas_to_prob_exact_doubles_witness :
  Binary64.thetas_to_prob (pi_multiple 3) = float_of_nat (3 mod 2) /\
  Binary64.thetas_to_prob (half_pi_multiple (2 * 1 + 1)) = 0.5%float.
Proof.
  split.
  - apply (proj1 (proj1 thetas_to_prob_exact_doubles 3%nat ltac:(lia))).
  - apply (proj1 (proj1 (proj2 thetas_to_prob_exact_doubles) 1%nat ltac:(lia))).
Defined.

(** C10: for every real angle the value lies in the closed interval from 0
    to 1, so every element of the array that [sample_exact_thetas] compares
    with the uniform draws is a probability. *)
Theorem thetas_to_prob_in_unit_interval :
  forall x : R,
    0 <= thetas_to_prob x <= 1 /\
    forall v : list R,
      Forall (fun p => 0 <= p <= 1) (map thetas_to_prob v).
Proof.
  intros x. split; [apply thetas_to_prob_bounds |].
  intros v. apply Forall_forall. intros p Hp.
  apply in_map_iff in Hp. destruct Hp as (y & <- & _).
  apply thetas_to_prob_bounds.
Qed.

Local Close Scope R_scope.

(** * The sampling of exact angles *)

Section SamplingProperties.

Context {K : Type}.
Variable K_eqb : K -> K -> bool.
Variable bit_generator : Z -> nat -> R.

(** C1: on a plain array, [dkeys] is never assigned, and the read of it in
    [if dkeys is not None] raises [UnboundLocalError]: no call on a plain
    array returns (a negative seed fails before, in the generator). *)
Theorem sample_exact_thetas_plain_array_raises :
  forall (entropy : Z) (v : list R) (n : nat) (seed : option Z),
    sample_exact_thetas K_eqb bit_generator entropy (ThetaArray v) n seed
      = Err (plain_array_error seed) /\
    is_ok (sample_exact_thetas K_eqb bit_generator entropy (ThetaArray v) n seed)
      = false.
Proof.
  intros entropy v n seed.
  assert (H : sample_exact_thetas K_eqb bit_generator entropy (ThetaArray v) n seed
              = Err (plain_array_error seed)).
  { unfold sample_exact_thetas, default_rng, plain_array_error.
    destruct seed as [s |]; [| reflexivity].
    destruct (s <? 0)%Z; reflexivity. }
  rewrite H. split; reflexivity.
Qed.

Lemma dict_set_values {V} (d : pydict V) (k : K) (v x : V) :
  In x (dict_values (dict_set K_eqb d k v)) -> x = v \/ In x (dict_values d).
Proof.
  unfold dict_values. induction d as [| [k' v'] d IH]; simpl.
  - intros [<- | []]. now left.
  - destruct (K_eqb k' k); simpl.
    + intros [<- | H]; [now left | right; now right].
    + intros [<- | H]; [right; now left |].
      destruct (IH H) as [-> | H']; [now left | right; now right].
Qed.

Lemma dict_of_items_values_acc {V} (items acc : list (K * V)) (x : V) :
  In x (dict_values
          (fold_left (fun d kv => dict_set K_eqb d (fst kv) (snd kv)) items acc)) ->
  In x (dict_values acc) \/ In x (map snd items).
Proof.
  revert acc. induction items as [| [k v] items IH]; intros acc; simpl.
  - now left.
  - intros H. apply IH in H. destruct H as [H | H]; [| right; now right].
    apply dict_set_values in H. simpl in H.
    destruct H as [-> | H]; [right; now left | now left].
Qed.

Lemma dict_of_items_values {V} (items : list (K * V)) (x : V) :
  In x (dict_values (dict_of_items K_eqb items)) -> In x (map snd items).
Proof.
  intros H. apply dict_of_items_values_acc in H.
  destruct H as [[] | H]. exact H.
Qed.

(** On a dict whose keys are distinct, with a usable seed: [n] dicts, each
    with the keys of the input in their order. *)
Hypothesis K_eqb_eq : forall a b : K, K_eqb a b = true <-> a = b.

Lemma dict_set_fresh {V} (d : pydict V) (k : K) (v : V) :
  ~ In k (dict_keys d) -> dict_set K_eqb d k v = d ++ [(k, v)].
Proof.
  unfold dict_keys. induction d as [| [k' v'] d IH]; simpl; intros H.
  - reflexivity.
  - destruct (K_eqb k' k) eqn:E.
    + apply K_eqb_eq in E. exfalso. apply H. now left.
    + rewrite IH; [reflexivity |]. intros Hin. apply H. now right.
Qed.

Lemma dict_of_items_fresh {V} (items acc : list (K * V)) :
  NoDup (map fst acc ++ map fst items) ->
  fold_left (fun d kv => dict_set K_eqb d (fst kv) (snd kv)) items acc
    = acc ++ items.
Proof.
  revert acc. induction items as [| [k v] items IH]; intros acc Hnd; simpl.
  - now rewrite app_nil_r.
  - simpl in Hnd. rewrite dict_set_fresh.
    + rewrite IH.
      * now rewrite <- app_assoc.
      * rewrite map_app. simpl. rewrite <- app_assoc. exact Hnd.
    + apply NoDup_remove_2 in Hnd. intros Hin. apply Hnd.
      apply in_or_app. now left.
Qed.

Lemma dict_of_items_NoDup {V} (items : list (K * V)) :
  NoDup (map fst items) -> dict_of_items K_eqb items = items.
Proof.
  intros H. unfold dict_of_items. now rewrite dict_of_items_fresh.
Qed.

Lemma map_fst_combine {A B} (l : list A) (l' : list B) :
  length l = length l' -> map fst (combine l l') = l.
Proof.
  revert l'. induction l as [| a l IH]; intros [| b l'] H; simpl in *;
    try discriminate; [reflexivity |].
  f_equal. apply IH. lia.
Qed.

Lemma sample_exact_thetas_dict (entropy : Z) (d : pydict R) (n : nat)
    (seed : option Z) :
  NoDup (dict_keys d) ->
  match seed with Some s => (0 <= s)%Z | None => True end ->
  exists ds,
    sample_exact_thetas K_eqb bit_generator entropy (ThetaDict d) n seed
      = Ok (SampledDicts ds) /\
    length ds = n /\
    Forall (fun d' => dict_keys d' = dict_keys d) ds.
Proof.
  intros Hnd Hseed. unfold sample_exact_thetas.
  assert (Hrng : exists rng, default_rng bit_generator entropy seed = Ok rng).
  { unfold default_rng. destruct seed as [s |]; [| eexists; reflexivity].
    destruct (Z.ltb_spec s 0); [lia | eexists; reflexivity]. }
  destruct Hrng as (rng & ->). cbn [bind load].
  rewrite !length_map. unfold rng_uniform at 1. rewrite !length_map, length_seq.
  rewrite Nat.eqb_refl. cbn [assert bind].
  eexists. split; [reflexivity |]. split.
  - unfold rng_uniform. now rewrite !length_map, length_seq.
  - apply Forall_forall. intros d' Hd'.
    apply in_map_iff in Hd'. destruct Hd' as (row & <- & Hrow).
    apply in_map_iff in Hrow. destruct Hrow as (prow & <- & Hprow).
    unfold rng_uniform in Hprow.
    apply in_map_iff in Hprow. destruct Hprow as (i & <- & _).
    assert (Hlen : length (dict_keys d) =
                   length (map (fun pt : R * R =>
                                  (R_of_bool (Rltb (fst pt) (snd pt)) * PI)%R)
                             (combine
                                (map (fun j : nat =>
                                        rng (i * length (dict_values d) + j)%nat)
                                   (seq 0 (length (dict_values d))))
                                (map thetas_to_prob (dict_values d))))).
    { rewrite length_map, length_combine, !length_map, length_seq.
      unfold dict_keys, dict_values. rewrite !length_map. lia. }
    rewrite dict_of_items_NoDup.
    + unfold dict_keys at 1. now apply map_fst_combine.
    + rewrite map_fst_combine by exact Hlen. exact Hnd.
Qed.

End SamplingProperties.

(** A call on a dict of two angles, for two samples. *)
Lemma sample_exact_thetas_dict_two (bit_generator : Z -> nat -> R) :
  exists ds,
    sample_exact_thetas String.eqb bit_generator 0
      (ThetaDict [("a", 0%R); ("b", PI)]) 2 (Some 7%Z)
      = Ok (SampledDicts ds) /\
    length ds = 2%nat /\
    Forall (fun d' => dict_keys d' = ["a"; "b"]) ds.
Proof.
  apply (sample_exact_thetas_dict String.eqb bit_generator String.eqb_eq 0
           [("a", 0%R); ("b", PI)] 2 (Some 7%Z)).
  - repeat constructor; simpl; intuition discriminate.
  - lia.
Qed.

(** * The two-line symbol of a permutation matrix *)

Section SortByKey.

Context {B : Type}.

Lemma insert_by_key_perm (x : nat * B) (l : list (nat * B)) :
  Permutation (insert_by_key x l) (x :: l).
Proof.
  induction l as [| y l IH]; simpl; [reflexivity |].
  destruct (fst x <=? fst y)%nat; [reflexivity |].
  rewrite IH. apply perm_swap.
Qed.

Lemma sort_by_key_perm (l : list (nat * B)) : Permutation (sort_by_key l) l.
Proof.
  induction l as [| x l IH]; simpl; [reflexivity |].
  rewrite insert_by_key_perm. now apply perm_skip.
Qed.

Lemma insert_by_key_sorted (x : nat * B) (l : list (nat * B)) :
  key_sorted l -> key_sorted (insert_by_key x l).
Proof.
  unfold key_sorted. induction 1 as [| y l Hs IH Hall]; simpl.
  - repeat constructor.
  - destruct (Nat.leb_spec (fst x) (fst y)) as [Hle | Hgt].
    + constructor; [now constructor |].
      constructor; [exact Hle |].
      eapply Forall_impl; [| exact Hall]. simpl. intros z Hz. lia.
    + constructor; [exact IH |].
      apply Forall_forall. intros z Hz.
      apply (Permutation_in _ (insert_by_key_perm x l)) in Hz.
      destruct Hz as [<- | Hz]; [lia |].
      rewrite Forall_forall in Hall. now apply Hall.
Qed.

Lemma sort_by_key_sorted (l : list (nat * B)) : key_sorted (sort_by_key l).
Proof.
  induction l as [| x l IH]; simpl; [constructor |].
  now apply insert_by_key_sorted.
Qed.

Lemma same_key_same_item (l : list (nat * B)) (x y : nat * B) :
  NoDup (map fst l) -> In x l -> In y l -> fst x = fst y -> x = y.
Proof.
  induction l as [| z l IH]; simpl; [intros _ [] |].
  intros Hnd Hx Hy Hk. inversion Hnd as [| ? ? Hnin Hnd']; subst.
  destruct Hx as [-> | Hx], Hy as [-> | Hy].
  - reflexivity.
  - exfalso. apply Hnin. rewrite Hk. now apply in_map.
  - exfalso. apply Hnin. rewrite <- Hk. now apply in_map.
  - now apply IH.
Qed.

(** With distinct keys, a list has one sorted arrangement. *)
Lemma key_sorted_unique (l1 l2 : list (nat * B)) :
  key_sorted l1 -> key_sorted l2 -> Permutation l1 l2 ->
  NoDup (map fst l1) -> l1 = l2.
Proof.
  unfold key_sorted. intros Hs1. revert l2.
  induction Hs1 as [| x t1 Hs1 IH Hall1]; intros l2 Hs2 Hp Hnd.
  - apply Permutation_nil in Hp. now subst.
  - destruct l2 as [| y t2].
    + apply Permutation_sym, Permutation_nil in Hp. discriminate.
    + inversion Hs2 as [| ? ? Hs2' Hall2]; subst.
      assert (Hxy : x = y).
      { assert (Hy : In y (x :: t1))
          by (apply (Permutation_in _ (Permutation_sym Hp)); now left).
        assert (Hx : In x (y :: t2))
          by (apply (Permutation_in _ Hp); now left).
        apply (same_key_same_item (x :: t1)); [exact Hnd | now left | exact Hy |].
        apply Nat.le_antisymm.
        - destruct Hy as [<- | Hy]; [lia |].
          rewrite Forall_forall in Hall1. now apply Hall1.
        - destruct Hx as [<- | Hx]; [lia |].
          rewrite Forall_forall in Hall2. now apply Hall2. }
      subst y. f_equal. apply IH.
      * exact Hs2'.
      * now apply Permutation_cons_inv in Hp.
      * simpl in Hnd. now inversion Hnd.
Qed.

End SortByKey.

Lemma insert_by_key_payload {B C} (f : B -> C) (x : nat * B) (l : list (nat * B)) :
  insert_by_key (fst x, f (snd x)) (map (fun kp => (fst kp, f (snd kp))) l)
  = map (fun kp => (fst kp, f (snd kp))) (insert_by_key x l).
Proof.
  induction l as [| y l IH]; simpl; [reflexivity |].
  destruct (fst x <=? fst y)%nat; simpl; [reflexivity | now rewrite IH].
Qed.

(** Sorting looks at the keys only. *)
Lemma sort_by_key_payload {B C} (f : B -> C) (l : list (nat * B)) :
  sort_by_key (map (fun kp => (fst kp, f (snd kp))) l)
  = map (fun kp => (fst kp, f (snd kp))) (sort_by_key l).
Proof.
  induction l as [| x l IH]; simpl; [reflexivity |].
  rewrite IH. apply insert_by_key_payload.
Qed.

Lemma map_nth_seq {A} (l : list A) (d : A) :
  map (fun i => nth i l d) (seq 0 (length l)) = l.
Proof.
  induction l as [| a l IH]; simpl; [reflexivity |].
  f_equal. rewrite <- seq_shift, map_map. exact IH.
Qed.

Lemma combine_map_r {A} (a : list nat) (c : list A) (d : A) (idx : list nat) :
  map (fun kp => (fst kp, nth (snd kp) c d)) (combine a idx)
  = combine a (map (fun i => nth i c d) idx).
Proof.
  revert idx. induction a as [| k a IH]; intros [| i idx]; simpl;
    try reflexivity.
  now rewrite IH.
Qed.

Lemma combine_positions {A} (a : list nat) (c : list A) (d : A) :
  length c = length a ->
  map (fun kp => (fst kp, nth (snd kp) c d)) (combine a (seq 0 (length a)))
  = combine a c.
Proof.
  intros Hlen. rewrite combine_map_r, <- Hlen, map_nth_seq. reflexivity.
Qed.

Lemma in_combine_seq (a : list nat) (s k i : nat) :
  In (k, i) (combine a (seq s (length a))) ->
  (s <= i)%nat /\ nth (i - s) a 0%nat = k.
Proof.
  revert s. induction a as [| x a IH]; intros s Hin; simpl in Hin;
    [destruct Hin |].
  destruct Hin as [[= <- <-] | Hin].
  - split; [lia |]. now rewrite Nat.sub_diag.
  - apply IH in Hin. destruct Hin as [Hle Hn]. split; [lia |].
    replace (i - s)%nat with (S (i - S s)) by lia. exact Hn.
Qed.

(** The columns of a two-row array in the order of [argsort] of a row are
    the columns sorted by that row. *)
Lemma take_argsort_payload (a c : list nat) :
  length c = length a ->
  map (fun k => nth k c 0%nat) (argsort a)
  = map snd (sort_by_key (combine a c)).
Proof.
  intros Hlen. unfold argsort. rewrite map_map.
  rewrite <- (combine_positions a c 0%nat Hlen).
  rewrite (sort_by_key_payload (fun i => nth i c 0%nat)), map_map.
  reflexivity.
Qed.

Lemma take_argsort_keys (a c : list nat) :
  length c = length a ->
  map (fun k => nth k a 0%nat) (argsort a)
  = map fst (sort_by_key (combine a c)).
Proof.
  intros Hlen. unfold argsort. rewrite map_map.
  rewrite <- (combine_positions a c 0%nat Hlen).
  rewrite (sort_by_key_payload (fun i => nth i c 0%nat)), map_map. cbn [fst].
  apply map_ext_in. intros [k i] Hin. cbn [fst snd].
  apply (Permutation_in _ (sort_by_key_perm _)) in Hin.
  apply in_combine_seq in Hin. destruct Hin as [_ Hn].
  now rewrite Nat.sub_0_r in Hn.
Qed.

Lemma take_columns_sorted (a c : list nat) :
  length c = length a ->
  take_columns [a; c] (argsort a)
  = [map fst (sort_by_key (combine a c)); map snd (sort_by_key (combine a c))].
Proof.
  intros Hlen. unfold take_columns. cbn [map].
  now rewrite (take_argsort_keys a c Hlen), (take_argsort_payload a c Hlen).
Qed.

Lemma combine_fst_snd {A C} (l : list (A * C)) :
  combine (map fst l) (map snd l) = l.
Proof.
  induction l as [| [a c] l IH]; simpl; [reflexivity | now rewrite IH].
Qed.

Lemma combine_snd_fst (l : list (nat * nat)) :
  combine (map snd l) (map fst l) = map swap_pair l.
Proof.
  induction l as [| [a c] l IH]; simpl; [reflexivity | now rewrite IH].
Qed.

Lemma swap_pair_involutive (l : list (nat * nat)) :
  map swap_pair (map swap_pair l) = l.
Proof.
  rewrite map_map. rewrite <- (map_id l) at 2.
  apply map_ext. now intros [a c].
Qed.

(** The symbol, with and without [inverse], as sorted coordinates. *)
Lemma perm_to_2line_inverse_sorted (mat : matrix) :
  perm_to_2line mat true
  = [map fst (sort_by_key (nonzero_coords mat));
     map snd (sort_by_key (nonzero_coords mat))].
Proof.
  unfold perm_to_2line, stack_nonzero. cbn [nth].
  rewrite take_columns_sorted by (now rewrite !length_map).
  now rewrite combine_fst_snd.
Qed.

Lemma perm_to_2line_sorted (mat : matrix) :
  perm_to_2line mat false
  = [map fst (sort_by_key (map swap_pair (nonzero_coords mat)));
     map snd (sort_by_key (map swap_pair (nonzero_coords mat)))].
Proof.
  unfold perm_to_2line, stack_nonzero. cbn [rev app nth].
  rewrite take_columns_sorted by (now rewrite !length_map).
  now rewrite combine_snd_fst.
Qed.

Lemma swap_and_resort_sorted (l : list (nat * nat)) :
  swap_and_resort [map fst l; map snd l]
  = [map fst (sort_by_key (map swap_pair l));
     map snd (sort_by_key (map swap_pair l))].
Proof.
  unfold swap_and_resort. cbn [rev app nth].
  rewrite take_columns_sorted by (now rewrite !length_map).
  now rewrite combine_snd_fst.
Qed.

Lemma in_combine_seq_iff {A} (l : list A) (s i : nat) (x : A) :
  In (i, x) (combine (seq s (length l)) l)
  <-> (s <= i)%nat /\ nth_error l (i - s) = Some x.
Proof.
  revert s. induction l as [| a l IH]; intros s; simpl.
  - split; [intros [] | intros [_ H]]. destruct (i - s)%nat; discriminate.
  - rewrite IH. split.
    + intros [[= <- <-] | [Hle Hn]].
      * split; [lia |]. now rewrite Nat.sub_diag.
      * split; [lia |]. replace (i - s)%nat with (S (i - S s)) by lia. exact Hn.
    + intros [Hle Hn]. destruct (Nat.eq_dec s i) as [<- | Hne].
      * left. rewrite Nat.sub_diag in Hn. simpl in Hn. congruence.
      * right. split; [lia |].
        replace (i - s)%nat with (S (i - S s)) in Hn by lia. exact Hn.
Qed.

Lemma in_enumerate {A} (l : list A) (i : nat) (x : A) :
  In (i, x) (enumerate l) <-> nth_error l i = Some x.
Proof.
  unfold enumerate. rewrite in_combine_seq_iff, Nat.sub_0_r.
  split; [now intros [_ H] | intros H; split; [lia | exact H]].
Qed.

(** The coordinates are those of the entries that are not 0. *)
Lemma in_nonzero_coords (mat : matrix) (i j : nat) :
  In (i, j) (nonzero_coords mat)
  <-> exists row x,
        nth_error mat i = Some row /\ nth_error row j = Some x /\ x <> 0%Z.
Proof.
  unfold nonzero_coords. rewrite in_flat_map. split.
  - intros ([i' row] & Hrow & Hin). apply in_enumerate in Hrow.
    apply in_flat_map in Hin. destruct Hin as ([j' x] & Hx & Hin).
    apply in_enumerate in Hx. cbn [fst snd] in Hin.
    destruct (Z.eqb_spec x 0) as [| Hne]; [destruct Hin |].
    destruct Hin as [[= <- <-] | []].
    exists row, x. repeat split; assumption.
  - intros (row & x & Hrow & Hx & Hne).
    exists (i, row). split; [now apply in_enumerate |].
    apply in_flat_map. exists (j, x). split; [now apply in_enumerate |].
    cbn [fst snd]. destruct (Z.eqb_spec x 0); [contradiction | now left].
Qed.

Lemma row_keys_repeat (i : nat) (pl : list (nat * Z)) :
  map fst (flat_map (fun jx : nat * Z =>
                       if (snd jx =? 0)%Z then [] else [(i, fst jx)]) pl)
  = repeat i (count_nonzero (map snd pl)).
Proof.
  unfold count_nonzero. induction pl as [| [j x] pl IH]; simpl; [reflexivity |].
  destruct (x =? 0)%Z; simpl; [exact IH | now rewrite IH].
Qed.

Lemma map_snd_combine_seq {A} (l : list A) (s : nat) :
  map snd (combine (seq s (length l)) l) = l.
Proof.
  revert s. induction l as [| a l IH]; intros s; simpl; [reflexivity |].
  now rewrite IH.
Qed.

Lemma map_snd_enumerate {A} (l : list A) : map snd (enumerate l) = l.
Proof. apply map_snd_combine_seq. Qed.

(** With at most one non-zero entry in a row, the row indices of the
    coordinates are distinct. *)
Lemma row_keys_NoDup (rows : list (list Z)) (s : nat) :
  Forall (fun row => (count_nonzero row <= 1)%nat) rows ->
  let keys :=
    map fst
      (flat_map (fun ir : nat * list Z =>
         flat_map (fun jx : nat * Z =>
                     if (snd jx =? 0)%Z then [] else [(fst ir, fst jx)])
                  (enumerate (snd ir)))
         (combine (seq s (length rows)) rows)) in
  NoDup keys /\ forall k, In k keys -> (s <= k)%nat.
Proof.
  intros Hall. revert s.
  induction Hall as [| row rows Hrow Hall IH]; intros s; simpl.
  - split; [constructor | intros k []].
  - destruct (IH (S s)) as [Hnd Hge]. cbn zeta in Hnd, Hge.
    rewrite map_app, row_keys_repeat, map_snd_enumerate.
    destruct (count_nonzero row) as [| [| c]]; simpl; [| | lia].
    + split; [exact Hnd |]. intros k Hk. apply Hge in Hk. lia.
    + split.
      * constructor; [| exact Hnd]. intros Hin. apply Hge in Hin. lia.
      * intros k [<- | Hk]; [lia |]. apply Hge in Hk. lia.
Qed.

Lemma is_perm_matrix_inv (n : nat) (mat : matrix) :
  is_perm_matrix n mat = true ->
  length mat = n /\
  Forall (fun row => length row = n) mat /\
  Forall (Forall (fun x => x = 0%Z \/ x = 1%Z)) mat /\
  Forall (fun row => count_ones row = 1%nat) mat.
Proof.
  unfold is_perm_matrix. rewrite !andb_true_iff, !forallb_forall.
  intros ((((Hl & Hr) & He) & Ho) & _).
  split; [now apply Nat.eqb_eq |]. split; [| split].
  - apply Forall_forall. intros row Hrow. now apply Nat.eqb_eq, Hr.
  - apply Forall_forall. intros row Hrow. apply Forall_forall. intros x Hx.
    specialize (He row Hrow). rewrite forallb_forall in He.
    specialize (He x Hx). apply orb_true_iff in He.
    destruct He as [He | He]; apply Z.eqb_eq in He; [now left | now right].
  - apply Forall_forall. intros row Hrow. now apply Nat.eqb_eq, Ho.
Qed.

Lemma count_nonzero_ones (row : list Z) :
  Forall (fun x => x = 0%Z \/ x = 1%Z) row ->
  count_nonzero row = count_ones row.
Proof.
  unfold count_nonzero, count_ones.
  induction 1 as [| x row Hx _ IH]; simpl; [reflexivity |].
  destruct Hx as [-> | ->]; simpl; [exact IH | now rewrite IH].
Qed.

Lemma perm_matrix_row_keys (n : nat) (mat : matrix) :
  is_perm_matrix n mat = true -> NoDup (map fst (nonzero_coords mat)).
Proof.
  intros H. apply is_perm_matrix_inv in H.
  destruct H as (_ & _ & He & Ho).
  apply (row_keys_NoDup mat 0).
  rewrite Forall_forall in *. intros row Hrow.
  rewrite count_nonzero_ones by (apply He, Hrow).
  rewrite (Ho row Hrow). lia.
Qed.

(** The matrix of the default symbol has a 1 exactly at the coordinates of
    the non-zero entries. *)
Lemma symbol_entry (mat : matrix) (i j : nat) :
  existsb (fun tb : nat * nat => (fst tb =? j)%nat && (snd tb =? i)%nat)
          (sort_by_key (map swap_pair (nonzero_coords mat))) = true
  <-> In (i, j) (nonzero_coords mat).
Proof.
  rewrite existsb_exists. split.
  - intros ([t b] & Hin & Htb). cbn [fst snd] in Htb.
    apply andb_true_iff in Htb. destruct Htb as [Ht Hb].
    apply Nat.eqb_eq in Ht, Hb. subst t b.
    apply (Permutation_in _ (sort_by_key_perm _)) in Hin.
    apply in_map_iff in Hin. destruct Hin as ([a c] & [= <- <-] & Hin).
    exact Hin.
  - intros Hin. exists (j, i). split.
    + apply (Permutation_in _ (Permutation_sym (sort_by_key_perm _))).
      apply in_map_iff. exists (i, j). now split.
    + cbn [fst snd]. now rewrite !Nat.eqb_refl.
Qed.

Lemma perm_to_2line_matrix (n : nat) (mat : matrix) :
  is_perm_matrix n mat = true ->
  matrix_of_2line n (perm_to_2line mat false) = mat.
Proof.
  intros H. apply is_perm_matrix_inv in H.
  destruct H as (Hl & Hr & He & _).
  rewrite perm_to_2line_sorted. unfold matrix_of_2line. cbn [nth].
  rewrite combine_fst_snd.
  transitivity (map (fun i => nth i mat []) (seq 0 n));
    [| rewrite <- Hl; apply map_nth_seq].
  apply map_ext_in. intros i Hi. apply in_seq in Hi.
  assert (Hrow : nth_error mat i = Some (nth i mat []))
    by (apply nth_error_nth'; lia).
  assert (Hin : In (nth i mat []) mat) by (apply nth_In; lia).
  rewrite Forall_forall in Hr, He.
  pose proof (Hr _ Hin) as Hlen. pose proof (He _ Hin) as H01.
  transitivity (map (fun j => nth j (nth i mat []) 0%Z) (seq 0 n));
    [| rewrite <- Hlen; apply map_nth_seq].
  apply map_ext_in. intros j Hj. apply in_seq in Hj.
  assert (Hx : nth_error (nth i mat []) j = Some (nth j (nth i mat []) 0%Z))
    by (apply nth_error_nth'; lia).
  assert (Hv : nth j (nth i mat []) 0%Z = 0%Z \/ nth j (nth i mat []) 0%Z = 1%Z).
  { rewrite Forall_forall in H01. apply H01. apply nth_In. lia. }
  destruct (existsb _ _) eqn:E.
  - apply symbol_entry, in_nonzero_coords in E.
    destruct E as (row & x & Hrow' & Hx' & Hne).
    rewrite Hrow in Hrow'. injection Hrow' as <-.
    rewrite Hx in Hx'. injection Hx' as <-.
    destruct Hv as [Hv | Hv]; [contradiction | now rewrite Hv].
  - destruct Hv as [Hv | Hv]; [now rewrite Hv |].
    assert (E' : existsb (fun tb : nat * nat => (fst tb =? j)%nat && (snd tb =? i)%nat)
                   (sort_by_key (map swap_pair (nonzero_coords mat))) = true).
    { apply symbol_entry, in_nonzero_coords.
      exists (nth i mat []), (nth j (nth i mat []) 0%Z).
      repeat split; [exact Hrow | exact Hx |]. rewrite Hv. discriminate. }
    rewrite E' in E. discriminate.
Qed.

Lemma perm_to_2line_inverse_swap (n : nat) (mat : matrix) :
  is_perm_matrix n mat = true ->
  perm_to_2line mat true = swap_and_resort (perm_to_2line mat false).
Proof.
  intros H. apply perm_matrix_row_keys in H.
  rewrite perm_to_2line_inverse_sorted, perm_to_2line_sorted,
    swap_and_resort_sorted.
  set (coords := nonzero_coords mat) in *.
  assert (Hp : Permutation coords
                 (map swap_pair (sort_by_key (map swap_pair coords)))).
  { rewrite <- (swap_pair_involutive coords) at 1.
    apply Permutation_map, Permutation_sym, sort_by_key_perm. }
  assert (Heq : sort_by_key coords
                = sort_by_key (map swap_pair (sort_by_key (map swap_pair coords)))).
  { apply key_sorted_unique.
    - apply sort_by_key_sorted.
    - apply sort_by_key_sorted.
    - rewrite sort_by_key_perm, sort_by_key_perm. exact Hp.
    - apply (Permutation_NoDup (l := map fst coords)); [| exact H].
      apply Permutation_map, Permutation_sym, sort_by_key_perm. }
  now rewrite <- Heq.
Qed.

(** C6: for every permutation matrix [P] of entries 0 and 1, the matrix of
    the two-line symbol [perm_to_2line(P)] is [P]; and
    [perm_to_2line(P, inverse=True)] is [perm_to_2line(P)] with its two rows
    swapped and its columns sorted again by the new top row. *)
Theorem perm_to_2line_round_trip :
  forall (n : nat) (P : matrix),
    is_perm_matrix n P = true ->
    matrix_of_2line n (perm_to_2line P false) = P /\
    perm_to_2line P true = swap_and_resort (perm_to_2line P false).
Proof.
  intros n P H. split.
  - now apply perm_to_2line_matrix.
  - now apply (perm_to_2line_inverse_swap n).
Qed.

Lemma perm_to_2line_round_trip_witness :
  matrix_of_2line 3 (perm_to_2line [[0; 1; 0]; [0; 0; 1]; [1; 0; 0]]%Z false)
    = [[0; 1; 0]; [0; 0; 1]; [1; 0; 0]]%Z /\
  perm_to_2line [[0; 1; 0]; [0; 0; 1]; [1; 0; 0]]%Z true
    = swap_and_resort (perm_to_2line [[0; 1; 0]; [0; 0; 1]; [1; 0; 0]]%Z false).
Proof.
  apply (perm_to_2line_round_trip 3 [[0; 1; 0]; [0; 0; 1]; [1; 0; 0]]%Z).
  vm_compute. reflexivity.
Defined.

(** * Further properties of the topology expansion *)

(** X1: a topology name other than linear and circular is refused with a
    [ValueError], by [_expand_topology] and so by [s4_ansatz], whatever the
    register and the parameters. *)
Theorem expand_topology_unrecognized :
  forall (name : string) (r : QuantumRegister),
    name <> "linear" -> name <> "circular" ->
    _expand_topology (TopoName name) r = Err ValueError /\
    forall (S : Type) (of_parameter : Param -> S) (counter : nat)
           (params : option (ndarray S)),
      s4_ansatz of_parameter counter (TopoName name) (inl r) params
        = Err ValueError.
Proof.
  intros name r Hl Hc.
  assert (H : _expand_topology (TopoName name) r = Err ValueError).
  { unfold _expand_topology.
    apply String.eqb_neq in Hl, Hc. rewrite Hl, Hc. reflexivity. }
  split; [exact H |].
  intros S ofp counter params. unfold s4_ansatz. now rewrite H.
Qed.

Lemma expand_topology_unrecognized_witness :
  _expand_topology (TopoName "full") (mk_qreg "r" 3) = Err ValueError /\
  forall (S : Type) (of_parameter : Param -> S) (counter : nat)
         (params : option (ndarray S)),
    s4_ansatz of_parameter counter (TopoName "full") (inl (mk_qreg "r" 3)) params
      = Err ValueError.
Proof.
  apply (expand_topology_unrecognized "full" (mk_qreg "r" 3)); discriminate.
Defined.

(** X2: over a register of at most one qubit the pre-defined topologies
    have no pair, and the expansion raises the [ValueError] of
    [np.vectorize] on an array without elements. *)
Theorem expand_topology_small_register :
  forall r : QuantumRegister,
    (reg_size r <= 1)%nat ->
    _expand_topology (TopoName "linear") r = Err ValueError /\
    _expand_topology (TopoName "circular") r = Err ValueError.
Proof.
  intros r Hr. unfold _expand_topology.
  destruct (reg_size r) as [| [| n]] eqn:E; [| | lia]; split; reflexivity.
Qed.

Lemma expand_topology_small_register_witness :
  _expand_topology (TopoName "linear") (mk_qreg "i" 1) = Err ValueError /\
  _expand_topology (TopoName "circular") (mk_qreg "i" 1) = Err ValueError.
Proof.
  apply (expand_topology_small_register (mk_qreg "i" 1)). simpl. lia.
Defined.

(** X3: an explicit topology that is not a 2-d array of two columns is
    refused with an [AssertionError]. *)
Theorem expand_topology_array_shape :
  forall (pairs : ndarray Z) (r : QuantumRegister),
    (forall e : nat, shape pairs <> [e; 2%nat]) ->
    _expand_topology (TopoArray pairs) r = Err AssertionError.
Proof.
  intros pairs r H. unfold _expand_topology, ndim. cbn [bind].
  destruct (shape pairs) as [| a [| b [| c l]]] eqn:Hs; try reflexivity.
  destruct (Nat.eqb_spec b 2) as [-> | Hb].
  - exfalso. now apply (H a).
  - cbn. destruct (Nat.eqb_spec b 2); [contradiction | reflexivity].
Qed.

Lemma expand_topology_array_shape_witness :
  _expand_topology (TopoArray (mk_ndarray [2; 3]%nat [0; 1; 2; 1; 2; 0]%Z))
    (mk_qreg "r" 3) = Err AssertionError.
Proof.
  apply (expand_topology_array_shape
           (mk_ndarray [2; 3]%nat [0; 1; 2; 1; 2; 0]%Z) (mk_qreg "r" 3)).
  intros e. simpl. discriminate.
Defined.

Lemma qreg_getitem_cases (r : QuantumRegister) (i : Z) :
  (exists q, qreg_getitem r i = Ok q) \/ qreg_getitem r i = Err IndexError.
Proof.
  unfold qreg_getitem. destruct (py_index (reg_bits r) i); [left | right].
  - eexists. reflexivity.
  - reflexivity.
Qed.

Lemma qreg_getitem_out_of_range (r : QuantumRegister) (i : Z) :
  (Z.of_nat (reg_size r) <= i)%Z \/ (i < - Z.of_nat (reg_size r))%Z ->
  qreg_getitem r i = Err IndexError.
Proof.
  intros H. unfold qreg_getitem, py_index. rewrite length_reg_bits.
  destruct (Z.leb_spec 0 i) as [H0 | H0].
  - destruct H as [H | H]; [| lia].
    replace (nth_error (reg_bits r) (Z.to_nat i)) with (@None Qubit);
      [reflexivity |].
    symmetry. apply nth_error_None. rewrite length_reg_bits. lia.
  - destruct (Z.leb_spec (- Z.of_nat (reg_size r)) i) as [H1 | H1];
      [lia | reflexivity].
Qed.

Lemma mapM_getitem_out_of_range (r : QuantumRegister) (l : list Z) :
  Exists (fun i => (Z.of_nat (reg_size r) <= i)%Z
                   \/ (i < - Z.of_nat (reg_size r))%Z) l ->
  mapM (qreg_getitem r) l = Err IndexError.
Proof.
  induction l as [| x l IH]; intros H; [inversion H |]. simpl.
  destruct (qreg_getitem_cases r x) as [(q & Hq) | Hq]; rewrite Hq;
    [| reflexivity].
  cbn [bind]. inversion H as [? ? Hx | ? ? Hl]; subst.
  - apply qreg_getitem_out_of_range in Hx. congruence.
  - now rewrite (IH Hl).
Qed.

(** X4: an explicit topology of [e >= 1] pairs of indices: when every index
    is in the register the expansion returns the array of the same shape
    with the qubit of the register for every index, in place; when some
    index is beyond the register it raises an [IndexError]. *)
Theorem expand_topology_array :
  forall (pairs : ndarray Z) (r : QuantumRegister) (e : nat),
    shape pairs = [e; 2%nat] ->
    data pairs <> [] ->
    (Forall (fun i => (0 <= i < Z.of_nat (reg_size r))%Z) (data pairs) ->
     _expand_topology (TopoArray pairs) r
       = Ok (mk_ndarray [e; 2%nat] (map (qubit_of r) (data pairs)))) /\
    (Exists (fun i => (Z.of_nat (reg_size r) <= i)%Z
                      \/ (i < - Z.of_nat (reg_size r))%Z) (data pairs) ->
     _expand_topology (TopoArray pairs) r = Err IndexError).
Proof.
  intros pairs r e Hs Hne. unfold _expand_topology, ndim. cbn [bind].
  rewrite Hs. cbn [length nth Nat.eqb andb assert bind]. split.
  - intros Hall. rewrite map_qreg_in_range by assumption. now rewrite Hs.
  - intros Hex. unfold _map_qreg, np_vectorize.
    destruct (data pairs) as [| x l] eqn:Hd; [congruence |].
    now rewrite mapM_getitem_out_of_range.
Qed.

Lemma expand_topology_array_witness :
  _expand_topology (TopoArray (mk_ndarray [2; 2]%nat [0; 2; 2; 1]%Z))
    (mk_qreg "r" 3)
    = Ok (mk_ndarray [2; 2]%nat
            (map (qubit_of (mk_qreg "r" 3)) [0; 2; 2; 1]%Z)) /\
  _expand_topology (TopoArray (mk_ndarray [2; 2]%nat [0; 1; 1; 3]%Z))
    (mk_qreg "r" 3) = Err IndexError.
Proof.
  split.
  - apply (expand_topology_array (mk_ndarray [2; 2]%nat [0; 2; 2; 1]%Z)
             (mk_qreg "r" 3) 2 eq_refl).
    + discriminate.
    + repeat constructor; simpl; lia.
  - apply (expand_topology_array (mk_ndarray [2; 2]%nat [0; 1; 1; 3]%Z)
             (mk_qreg "r" 3) 2 eq_refl).
    + discriminate.
    + right. right. right. left. left. simpl. lia.
Defined.

(** * Further properties of the block and of the registers *)

(** X5: [_s4_block] takes exactly five parameters: any other number is
    refused with an [AssertionError], and five parameters give the circuit
    on the two qubits of a register q with the thirteen gates of the block,
    every parameter in one phase gate, in the order of the parameters. *)
Theorem s4_block_gates :
  forall (S : Type) (params : list S),
    (length params <> 5%nat -> _s4_block params = Err AssertionError) /\
    (forall p0 p1 p2 p3 p4 : S,
        params = [p0; p1; p2; p3; p4] ->
        let q0 := mk_qubit (mk_qreg "q" 2) 0 in
        let q1 := mk_qubit (mk_qreg "q" 2) 1 in
        _s4_block params
        = Ok (mk_qc [mk_qreg "q" 2]
                [(OpH, [q0]); (OpP (Ang p0), [q0]); (OpH, [q0]);
                 (OpH, [q1]); (OpP (Ang p1), [q1]);
                 (OpCP (Ang p2), [q0; q1]); (OpH, [q1]);
                 (OpH, [q0]); (OpCP (Ang p3), [q1; q0]); (OpH, [q0]);
                 (OpH, [q1]); (OpCP (Ang p4), [q0; q1]); (OpH, [q1])])).
Proof.
  intros S params. split.
  - intros H. unfold _s4_block, S4_BLOCK_PARCOUNT.
    destruct (Nat.eqb_spec (length params) 5); [contradiction | reflexivity].
  - intros p0 p1 p2 p3 p4 ->. reflexivity.
Qed.

Lemma s4_block_gates_witness :
  _s4_block [1%Z; 2%Z; 3%Z] = Err AssertionError /\
  exists qc,
    _s4_block [1%Z; 2%Z; 3%Z; 4%Z; 5%Z] = Ok qc /\ length (qc_data qc) = 13%nat.
Proof.
  split.
  - apply (proj1 (s4_block_gates Z [1%Z; 2%Z; 3%Z])). simpl. lia.
  - eexists. split.
    + apply (proj2 (s4_block_gates Z [1%Z; 2%Z; 3%Z; 4%Z; 5%Z])
               1%Z 2%Z 3%Z 4%Z 5%Z eq_refl).
    + reflexivity.
Defined.

Lemma NoDup_all_bits (m : nat) : NoDup (all_bits m).
Proof.
  unfold all_bits.
  assert (Hreg : forall r q, In q (reg_bits r) -> q_reg q = r).
  { intros r q Hq. unfold reg_bits in Hq. apply in_map_iff in Hq.
    destruct Hq as (k & <- & _). reflexivity. }
  apply NoDup_app; [apply NoDup_reg_bits | |].
  - apply NoDup_app; [apply NoDup_reg_bits | apply NoDup_reg_bits |].
    intros q Hj Ha. apply Hreg in Hj, Ha. rewrite Hj in Ha. discriminate.
  - intros q Hi Hja. apply Hreg in Hi. apply in_app_or in Hja.
    destruct Hja as [Hj | Ha].
    + apply Hreg in Hj. rewrite Hi in Hj. discriminate.
    + apply Hreg in Ha. rewrite Hi in Ha. discriminate.
Qed.

Lemma length_all_bits (m : nat) : length (all_bits m) = (2 * m + 1)%nat.
Proof.
  unfold all_bits. rewrite !length_app, !length_reg_bits. simpl. lia.
Qed.

(** X6: [_circ_qregs] splits an odd number [n] of qubits into the registers
    i and j of [(n - 1) / 2] qubits and the register a of one qubit, which
    hold [n] distinct qubits in this order; an even [n] is refused with an
    [AssertionError]. *)
Theorem circ_qregs_partition :
  forall n : nat,
    (Nat.odd n = true ->
     exists m, n = (2 * m + 1)%nat /\
               _circ_qregs n = Ok (reg_i m, reg_j m, reg_a) /\
               _circ_qregs_as_qubits n = Ok (all_bits m) /\
               length (all_bits m) = n /\
               NoDup (all_bits m)) /\
    (Nat.even n = true ->
     _circ_qregs n = Err AssertionError /\
     _circ_qregs_as_qubits n = Err AssertionError).
Proof.
  intros n. split.
  - intros Hodd. apply Nat.odd_spec in Hodd. destruct Hodd as (m & ->).
    exists m. split; [reflexivity |].
    split; [apply circ_qregs_odd |]. split; [| split].
    + unfold _circ_qregs_as_qubits. rewrite circ_qregs_odd. reflexivity.
    + apply length_all_bits.
    + apply NoDup_all_bits.
  - intros Heven. apply Nat.even_spec in Heven. destruct Heven as (m & ->).
    assert (H : _circ_qregs (2 * m) = Err AssertionError).
    { unfold _circ_qregs.
      replace ((2 * m + 1) mod 2)%nat with 1%nat; [reflexivity |].
      symmetry. rewrite Nat.add_comm, Nat.mul_comm.
      rewrite Nat.Div0.mod_add. reflexivity. }
    split; [exact H |]. unfold _circ_qregs_as_qubits. now rewrite H.
Qed.

Lemma circ_qregs_partition_witness :
  (exists m, 5%nat = (2 * m + 1)%nat /\
             _circ_qregs 5 = Ok (reg_i m, reg_j m, reg_a) /\
             _circ_qregs_as_qubits 5 = Ok (all_bits m) /\
             length (all_bits m) = 5%nat /\
             NoDup (all_bits m)) /\
  _circ_qregs 4 = Err AssertionError /\
  _circ_qregs_as_qubits 4 = Err AssertionError.
Proof.
  split.
  - apply (proj1 (circ_qregs_partition 5)). reflexivity.
  - apply (proj2 (circ_qregs_partition 4)). reflexivity.
Defined.

(** * Further properties of the assembler *)

Lemma validation_cases {A} (mat : ndarray A) :
  _pow2_shaped_mat_validation mat = Ok mat \/
  _pow2_shaped_mat_validation mat = Err AssertionError.
Proof.
  unfold _pow2_shaped_mat_validation.
  destruct (ndim mat =? 2)%nat; [| now right]. cbn [assert bind].
  destruct (nth 0 (shape mat) 0 =? nth 1 (shape mat) 0)%nat; [| now right].
  cbn [assert bind].
  destruct (forallb _is_pow_2 (map Z.of_nat (shape mat))); [now left | now right].
Qed.

(** X7: [ansatz] raises an [AssertionError] when one of the two matrices
    does not pass the validation, and when both pass and the pattern [adj2]
    has more rows than the host [adj1]; this for every topology, also an
    unrecognized one. *)
Theorem ansatz_preconditions :
  forall (S : Type) (of_parameter : Param -> S) (adj1 adj2 : ndarray Q)
         (topology : topology_spec),
    is_ok (_pow2_shaped_mat_validation adj1) = false \/
    is_ok (_pow2_shaped_mat_validation adj2) = false \/
    (len adj1 < len adj2)%nat ->
    ansatz of_parameter adj1 adj2 topology = Err AssertionError.
Proof.
  intros S ofp adj1 adj2 topology H. unfold ansatz.
  destruct (validation_cases adj1) as [H1 | H1]; rewrite H1 in *;
    [| reflexivity].
  cbn [bind].
  destruct (validation_cases adj2) as [H2 | H2]; rewrite H2 in *;
    [| reflexivity].
  cbn [bind]. destruct H as [H | [H | H]]; try discriminate.
  destruct (Nat.leb_spec (len adj2) (len adj1)); [lia | reflexivity].
Qed.

Lemma ansatz_preconditions_witness :
  ansatz (fun x => x) edge2 cycle4 (TopoName "circular") = Err AssertionError /\
  ansatz (fun x => x) (mk_ndarray [3; 3]%nat (repeat 0%Q 9)) edge2
    (TopoName "linear") = Err AssertionError.
Proof.
  split.
  - apply (ansatz_preconditions Param (fun x => x) edge2 cycle4
             (TopoName "circular")).
    right. right. unfold len, edge2, cycle4. simpl. lia.
  - apply (ansatz_preconditions Param (fun x => x)
             (mk_ndarray [3; 3]%nat (repeat 0%Q 9)) edge2 (TopoName "linear")).
    left. reflexivity.
Defined.

(** * The zero extension and the diagonal encoder *)

Lemma nth_grid {A} (f : nat -> nat -> A) (R C s i j : nat) (d : A) :
  (i < R)%nat -> (j < C)%nat ->
  nth (i * C + j) (flat_map (fun i => map (f i) (seq 0 C)) (seq s R)) d
  = f (s + i)%nat j.
Proof.
  revert s i. induction R as [| R IH]; intros s i Hi Hj; [lia |].
  cbn [seq flat_map]. destruct i as [| i].
  - rewrite app_nth1 by (rewrite length_map, length_seq; lia).
    rewrite (nth_indep _ d (f s 0%nat)) by (rewrite length_map, length_seq; lia).
    rewrite (map_nth (f s)), seq_nth by lia. now rewrite Nat.add_0_r.
  - rewrite app_nth2 by (rewrite length_map, length_seq; simpl; lia).
    rewrite length_map, length_seq.
    replace (S i * C + j - C)%nat with (i * C + j)%nat by (simpl; lia).
    rewrite IH by lia. f_equal. lia.
Qed.

Lemma length_grid {A} (f : nat -> nat -> A) (R C s : nat) :
  length (flat_map (fun i => map (f i) (seq 0 C)) (seq s R)) = (R * C)%nat.
Proof.
  rewrite (flat_map_constant_length (c := C)).
  - now rewrite length_seq.
  - intros x _. now rewrite length_map, length_seq.
Qed.

(** X8: [_mat_zero_ext] of a 2-d array of shape [(r, c)] to a shape
    [(R, C)] that is at least as large returns an array of shape [(R, C)]
    with the entries of the input in the block of the first [r] rows and
    [c] columns and the zero everywhere else; an input with more rows (and
    more than one) than the target is refused with the [ValueError] of the
    assignment. *)
Theorem mat_zero_ext_block :
  forall (A : Type) (zero : A) (mat : ndarray A) (R C r c : nat),
    shape mat = [r; c] ->
    ((r <= R)%nat -> (c <= C)%nat ->
     exists ext,
       _mat_zero_ext zero mat [R; C] = Ok ext /\
       shape ext = [R; C] /\
       length (data ext) = (R * C)%nat /\
       forall i j, (i < R)%nat -> (j < C)%nat ->
         get2 ext i j zero =
           if ((i <? r) && (j <? c))%nat then get2 mat i j zero else zero) /\
    ((R < r)%nat -> (1 < r)%nat ->
     _mat_zero_ext zero mat [R; C] = Err ValueError).
Proof.
  intros A zero mat R C r c Hs. unfold _mat_zero_ext. rewrite Hs. split.
  - intros Hr Hc.
    rewrite (Nat.min_l r R), (Nat.min_l c C) by assumption.
    rewrite !Nat.eqb_refl. cbn [orb andb].
    eexists. split; [reflexivity |]. split; [reflexivity |].
    cbn [data]. split; [apply length_grid |].
    intros i j Hi Hj. unfold get2. cbn [shape data nth].
    rewrite (nth_grid
               (fun i j =>
                  if ((i <? r) && (j <? c))%nat
                  then nth ((if (r =? 1)%nat then 0 else i) * c
                            + (if (c =? 1)%nat then 0 else j))%nat
                         (data mat) zero
                  else zero) R C 0 i j zero Hi Hj).
    cbn [Nat.add]. rewrite Hs. cbn [nth].
    destruct (Nat.ltb_spec i r) as [Hir | Hir]; [| reflexivity].
    destruct (Nat.ltb_spec j c) as [Hjc | Hjc]; [| reflexivity].
    cbn [andb].
    destruct (Nat.eqb_spec r 1) as [-> | _];
      destruct (Nat.eqb_spec c 1) as [-> | _]; f_equal; lia.
  - intros Hr H1.
    rewrite (Nat.min_r r R) by lia.
    destruct (Nat.eqb_spec r R); [lia |].
    destruct (Nat.eqb_spec r 1); [lia | reflexivity].
Qed.

Lemma mat_zero_ext_block_witness :
  (exists ext,
      _mat_zero_ext 0%Z (mk_ndarray [2; 2]%nat [1; 2; 3; 4]%Z) [4; 4]%nat = Ok ext /\
      shape ext = [4; 4]%nat /\
      length (data ext) = (4 * 4)%nat /\
      forall i j, (i < 4)%nat -> (j < 4)%nat ->
        get2 ext i j 0%Z =
          if ((i <? 2) && (j <? 2))%nat
          then get2 (mk_ndarray [2; 2]%nat [1; 2; 3; 4]%Z) i j 0%Z else 0%Z) /\
  _mat_zero_ext 0%Z (mk_ndarray [4; 4]%nat (repeat 1%Z 16)) [2; 2]%nat
    = Err ValueError.
Proof.
  split.
  - apply (proj1 (mat_zero_ext_block Z 0%Z (mk_ndarray [2; 2]%nat [1; 2; 3; 4]%Z)
                    4 4 2 2 eq_refl)); lia.
  - apply (proj2 (mat_zero_ext_block Z 0%Z (mk_ndarray [4; 4]%nat (repeat 1%Z 16))
                    2 2 4 4 eq_refl)); lia.
Defined.

Section EncoderProperties.

Context {S : Type}.

Lemma Diagonal_ok (diag : list bool) (K : nat) :
  length diag = (2 ^ K)%nat -> (1 <= K)%nat ->
  @Diagonal S diag
  = Ok (mk_qc [mk_qreg "q" K] [(OpDiagonal diag, reg_bits (mk_qreg "q" K))]).
Proof.
  intros Hl HK. unfold Diagonal. rewrite Hl, Nat.log2_pow2 by lia.
  rewrite Nat.eqb_refl. destruct (Nat.leb_spec 1 K); [reflexivity | lia].
Qed.

Lemma to_gate_one_reg (r : QuantumRegister) (o : Op S) (label : option string) :
  to_gate (mk_qc [r] [(o, reg_bits r)]) label
  = OpGate label (reg_size r) [(o, seq 0 (reg_size r))].
Proof.
  unfold to_gate. rewrite num_qubits_one_reg, qubits_one_reg. cbn [qc_data map].
  pose proof (index_of_NoDup (reg_bits r) [] (NoDup_reg_bits r)) as Hi.
  rewrite app_nil_r in Hi. now rewrite Hi, length_reg_bits.
Qed.

(** The end of [_adj_flatten_repr], from the flattened bits on. *)
Lemma encoder_of_bits (bits : list bool) (k : nat) :
  length bits = (2 ^ k * 2 ^ k)%nat ->
  (adj <- @Diagonal S (map (fun _ => false) bits ++ bits) ;;
   '(i, j, a) <- _circ_qregs (num_qubits adj) ;;
   let qc := new_circuit [i; j; a] in
   qs <- _circ_qregs_as_qubits (num_qubits adj) ;;
   compose_gate qc (to_gate adj (Some "QAdj")) (Some qs))
  = Ok (mk_qc [reg_i k; reg_j k; reg_a]
          [(OpGate (Some "QAdj") (2 * k + 1)
              [(OpDiagonal (repeat false (2 ^ k * 2 ^ k) ++ bits),
                seq 0 (2 * k + 1))],
            all_bits k)]).
Proof.
  intros Hl.
  assert (Hz : map (fun _ : bool => false) bits = repeat false (2 ^ k * 2 ^ k)).
  { rewrite <- Hl. clear Hl. induction bits as [| b bits IH]; simpl;
      [reflexivity | now rewrite IH]. }
  rewrite Hz.
  rewrite (Diagonal_ok _ (2 * k + 1)%nat).
  - cbn [bind]. rewrite num_qubits_one_reg. cbn [reg_size].
    rewrite circ_qregs_odd. cbn [bind].
    unfold _circ_qregs_as_qubits. rewrite circ_qregs_odd. cbn [bind].
    fold (all_bits k). rewrite to_gate_one_reg. cbn [reg_size].
    unfold compose_gate. cbn [op_num_qubits].
    rewrite length_all_bits, Nat.eqb_refl. reflexivity.
  - rewrite length_app, repeat_length, Hl.
    replace (2 * k + 1)%nat with (Datatypes.S (k + k)) by lia.
    rewrite Nat.pow_succ_r', Nat.pow_add_r. lia.
  - lia.
Qed.

Lemma is_pow_2_pow (k : nat) : _is_pow_2 (Z.of_nat (2 ^ k)) = true.
Proof.
  apply _is_pow_2_side. right. now exists k.
Qed.

Lemma adj_flatten_repr_none (adj : ndarray Q) (k : nat) :
  shape adj = [(2 ^ k)%nat; (2 ^ k)%nat] ->
  length (data adj) = (2 ^ k * 2 ^ k)%nat ->
  @_adj_flatten_repr S adj None
  = Ok (mk_qc [reg_i k; reg_j k; reg_a]
          [(OpGate (Some "QAdj") (2 * k + 1)
              [(OpDiagonal (repeat false (2 ^ k * 2 ^ k)
                            ++ map edge_bit (data adj)),
                seq 0 (2 * k + 1))],
            all_bits k)]).
Proof.
  intros Hs Hl. unfold _adj_flatten_repr, ndim, len. cbn [shape data].
  rewrite Hs. cbn [length nth hd]. rewrite !Nat.eqb_refl.
  cbn [andb assert bind shape data hd]. rewrite is_pow_2_pow.
  cbn [assert bind].
  change (map (fun x : Q => negb (np_round x =? 0)%Z) (data adj))
    with (map edge_bit (data adj)).
  apply encoder_of_bits. now rewrite length_map.
Qed.

(** The encoder of a matrix that is extended to a side [2^k]. *)
Lemma adj_flatten_repr_ext (adj : ndarray Q) (s k : nat) :
  shape adj = [s; s] -> (s <= 2 ^ k)%nat ->
  exists g,
    op_label g = Some "QAdj" /\
    @_adj_flatten_repr S adj (Some [(2 ^ k)%nat; (2 ^ k)%nat])
    = Ok (mk_qc [reg_i k; reg_j k; reg_a] [(g, all_bits k)]).
Proof.
  intros Hs Hle. unfold _adj_flatten_repr, ndim, len. cbn [shape data].
  rewrite Hs. cbn [length nth hd]. rewrite !Nat.eqb_refl.
  cbn [andb assert bind]. unfold _mat_zero_ext. cbn [shape data].
  rewrite (Nat.min_l s (2 ^ k)) by exact Hle.
  rewrite !Nat.eqb_refl. cbn [orb andb bind shape data hd].
  rewrite is_pow_2_pow. cbn [assert bind].
  rewrite (encoder_of_bits _ k) by apply length_grid.
  eexists. split; [| reflexivity]. reflexivity.
Qed.

(** X9: for a square matrix of side [2^k] (with its [2^k * 2^k] entries),
    [_adj_flatten_repr] returns a circuit over the registers i and j of [k]
    qubits and a of one qubit, with one gate labelled QAdj on all the
    [2 k + 1] qubits, whose diagonal is one zero bit per entry followed by
    the bits [round(x) != 0] of the entries in row-major order; a matrix
    that is not 2-d and square is refused with an [AssertionError]. *)
Theorem adj_flatten_repr_diagonal :
  forall (adj : ndarray Q),
    (forall k : nat,
        shape adj = [(2 ^ k)%nat; (2 ^ k)%nat] ->
        length (data adj) = (2 ^ k * 2 ^ k)%nat ->
        @_adj_flatten_repr S adj None
        = Ok (mk_qc [reg_i k; reg_j k; reg_a]
                [(OpGate (Some "QAdj") (2 * k + 1)
                    [(OpDiagonal (repeat false (2 ^ k * 2 ^ k)
                                  ++ map edge_bit (data adj)),
                      seq 0 (2 * k + 1))],
                  all_bits k)])) /\
    ((forall s : nat, shape adj <> [s; s]) ->
     forall shp, @_adj_flatten_repr S adj shp = Err AssertionError).
Proof.
  intros adj. split.
  - intros k Hs Hl. now apply adj_flatten_repr_none.
  - intros Hns shp. unfold _adj_flatten_repr, ndim. cbn [shape].
    destruct (shape adj) as [| a [| b [| c l]]] eqn:Hs; try reflexivity.
    cbn [length nth].
    destruct (Nat.eqb_spec a b) as [-> | Hab].
    + exfalso. now apply (Hns b).
    + reflexivity.
Qed.

End EncoderProperties.

Lemma adj_flatten_repr_diagonal_witness :
  @_adj_flatten_repr Param edge2 None
  = Ok (mk_qc [reg_i 1; reg_j 1; reg_a]
          [(OpGate (Some "QAdj") (2 * 1 + 1)
              [(OpDiagonal (repeat false (2 ^ 1 * 2 ^ 1)
                            ++ map edge_bit (data edge2)),
                seq 0 (2 * 1 + 1))],
            all_bits 1)]) /\
  @_adj_flatten_repr Param (mk_ndarray [2; 3]%nat (repeat 0%Q 6)) None
  = Err AssertionError.
Proof.
  split.
  - apply (proj1 (@adj_flatten_repr_diagonal Param edge2) 1%nat); reflexivity.
  - apply (proj2 (@adj_flatten_repr_diagonal Param
                    (mk_ndarray [2; 3]%nat (repeat 0%Q 6)))).
    intros s. simpl. intros [= H1 H2]. lia.
Defined.

(** * The permutation ansatz and the assembler on the pre-defined
    topologies *)

Lemma chunks_length {A} (n c : nat) (l : list A) : length (chunks n c l) = n.
Proof.
  revert l. induction n as [| n IH]; intros l; simpl; [reflexivity |].
  now rewrite IH.
Qed.

Lemma chunks_Forall {A} (n c : nat) (l : list A) :
  length l = (n * c)%nat -> Forall (fun row => length row = c) (chunks n c l).
Proof.
  revert l. induction n as [| n IH]; intros l Hl; simpl; constructor.
  - rewrite length_firstn. simpl in Hl. lia.
  - apply IH. rewrite length_skipn. simpl in Hl. lia.
Qed.

Lemma expand_named_ok (r : QuantumRegister) (name : string) :
  (2 <= reg_size r)%nat ->
  name = "linear" \/ name = "circular" ->
  exists d,
    _expand_topology (TopoName name) r
      = Ok (mk_ndarray [edge_count name (reg_size r); 2%nat] d) /\
    length d = (edge_count name (reg_size r) * 2)%nat.
Proof.
  intros HN [-> | ->]; unfold edge_count.
  - cbn [String.eqb Ascii.eqb Bool.eqb andb].
    eexists. split; [apply expand_linear; exact HN |].
    rewrite (flat_map_constant_length (c := 2)); [now rewrite length_seq |].
    intros; reflexivity.
  - replace (String.eqb "circular" "circular") with true by reflexivity.
    cbn [andb].
    destruct (Nat.ltb_spec 2 (reg_size r)) as [H2 | H2].
    + eexists. split.
      * rewrite expand_circular_wrap by exact H2.
        replace (S (reg_size r - 1)) with (reg_size r) by lia. reflexivity.
      * rewrite length_app, (flat_map_constant_length (c := 2));
          [rewrite length_seq; simpl; lia |].
        intros; reflexivity.
    + eexists. split.
      * rewrite expand_circular_two by lia. apply expand_linear. exact HN.
      * rewrite (flat_map_constant_length (c := 2)); [now rewrite length_seq |].
        intros; reflexivity.
Qed.

Section NamedTopologies.

Context {S : Type}.
Variable of_parameter : Param -> S.

Lemma s4_block_five (v : list S) :
  length v = 5%nat ->
  exists d, _s4_block v = Ok (mk_qc [mk_qreg "q" 2] d) /\ length d = 13%nat.
Proof.
  intros Hv.
  destruct v as [| p0 [| p1 [| p2 [| p3 [| p4 [| p5 v]]]]]]; try discriminate.
  eexists. split; reflexivity.
Qed.

Lemma s4_blocks_ok (pairs : list (list S * list Qubit)) (qc : QuantumCircuit S) :
  Forall (fun vq => length (fst vq) = 5%nat /\ length (snd vq) = 2%nat) pairs ->
  (2 <= num_qubits qc)%nat ->
  exists d,
    s4_blocks qc pairs = Ok (mk_qc (qregs qc) (qc_data qc ++ d)) /\
    length d = (13 * length pairs)%nat.
Proof.
  intros Hall. revert qc.
  induction Hall as [| [v q] pairs [Hv Hq] Hall IH]; intros qc Hn.
  - exists []. split; [| reflexivity]. simpl. rewrite app_nil_r.
    now destruct qc.
  - cbn [fst snd] in Hv, Hq. cbn [s4_blocks].
    destruct (s4_block_five v Hv) as (d & -> & Hd). cbn [bind].
    unfold compose. rewrite num_qubits_one_reg. cbn [reg_size].
    destruct (Nat.ltb_spec (num_qubits qc) 2) as [? | _]; [lia |].
    rewrite Hq. cbn [Nat.eqb bind qc_data qregs].
    match goal with
    | |- context [s4_blocks ?c pairs] =>
        destruct (IH c) as (d' & Hd' & Hl');
          [unfold num_qubits, qubits in *; exact Hn |]
    end.
    rewrite Hd'. cbn [qregs qc_data]. rewrite <- app_assoc.
    eexists. split; [reflexivity |].
    rewrite length_app, length_map, Hd, Hl'. simpl. lia.
Qed.

Lemma combine_Forall_rows {A B} (l : list (list A)) (l' : list (list B))
    (a b : nat) :
  Forall (fun row => length row = a) l ->
  Forall (fun row => length row = b) l' ->
  Forall (fun vq => length (fst vq) = a /\ length (snd vq) = b) (combine l l').
Proof.
  intros Hl. revert l'. induction Hl as [| x l Hx Hl IH]; intros l' Hl';
    [constructor |].
  destruct Hl' as [| y l' Hy Hl']; [constructor |]. simpl.
  constructor; [now split | now apply IH].
Qed.

Lemma s4_ansatz_named_ok :
  forall (counter : nat) (r : QuantumRegister) (name : string),
    (2 <= reg_size r)%nat ->
    name = "linear" \/ name = "circular" ->
    exists defn,
      s4_ansatz of_parameter counter (TopoName name) (inl r) None
      = Ok (mk_qc [r]
              [(OpGate (Some "PermAnsatz") (reg_size r) defn, reg_bits r)],
            mk_ndarray [edge_count name (reg_size r); 5%nat]
              (map of_parameter
                 (map (mk_param "t")
                    (seq 0 (edge_count name (reg_size r) * 5))))) /\
      length defn = (13 * edge_count name (reg_size r))%nat.
Proof.
  intros counter r name HN Hname.
  destruct (expand_named_ok r name HN Hname) as (d & Hexp & Hd).
  set (E := edge_count name (reg_size r)) in *.
  unfold s4_ansatz. rewrite Hexp. cbn [bind].
  unfold params_tensor, np_product, S4_BLOCK_PARCOUNT, ndim, len.
  cbn [shape data length nth hd fold_right].
  rewrite Nat.eqb_refl. cbn [Nat.eqb andb assert bind].
  replace (E * (5 * 1))%nat with (E * 5)%nat by lia.
  unfold rows_of. cbn [shape data].
  destruct (s4_blocks_ok
              (combine
                 (chunks E 5 (map of_parameter (map (mk_param "t") (seq 0 (E * 5)))))
                 (chunks E 2 d))
              (new_circuit [r])) as (defn & Hb & Hl).
  { apply combine_Forall_rows.
    - apply chunks_Forall. now rewrite !length_map, length_seq.
    - apply chunks_Forall. exact Hd. }
  { unfold new_circuit. rewrite num_qubits_one_reg. exact HN. }
  rewrite Hb, Nat.eqb_refl. unfold new_circuit.
  cbn [assert bind qregs qc_data app].
  unfold compose_gate, to_gate. cbn [op_num_qubits qc_data qregs].
  rewrite num_qubits_one_reg, !qubits_one_reg, firstn_reg_bits.
  rewrite length_reg_bits, Nat.eqb_refl. cbn [app bind].
  eexists. split; [reflexivity |].
  rewrite length_map, Hl, length_combine, !chunks_length. lia.
Qed.

(** X10: over a register of [N >= 2] qubits and with fresh parameters,
    [s4_ansatz] returns for the linear and for the circular topology: the
    circuit is one gate labelled PermAnsatz on the whole register, made of
    13 gates for every pair of the topology, and the parameter tensor is
    the one of shape (number of pairs, 5) of the parameters t[0], t[1], ...
    in order. *)
Theorem s4_ansatz_named_topology :
  forall (counter : nat) (r : QuantumRegister) (name : string),
    (2 <= reg_size r)%nat ->
    name = "linear" \/ name = "circular" ->
    exists defn,
      s4_ansatz of_parameter counter (TopoName name) (inl r) None
      = Ok (mk_qc [r]
              [(OpGate (Some "PermAnsatz") (reg_size r) defn, reg_bits r)],
            mk_ndarray [edge_count name (reg_size r); 5%nat]
              (map of_parameter
                 (map (mk_param "t")
                    (seq 0 (edge_count name (reg_size r) * 5))))) /\
      length defn = (13 * edge_count name (reg_size r))%nat.
Proof.
  exact s4_ansatz_named_ok.
Qed.

End NamedTopologies.

Lemma s4_ansatz_named_topology_witness :
  exists defn,
    s4_ansatz (fun x => x) 0 (TopoName "circular") (inl (mk_qreg "i" 3)) None
    = Ok (mk_qc [mk_qreg "i" 3]
            [(OpGate (Some "PermAnsatz") 3 defn, reg_bits (mk_qreg "i" 3))],
          mk_ndarray [edge_count "circular" 3; 5%nat]
            (map (fun x => x)
               (map (mk_param "t") (seq 0 (edge_count "circular" 3 * 5))))) /\
    length defn = (13 * edge_count "circular" 3)%nat.
Proof.
  apply (s4_ansatz_named_topology (fun x => x) 0 (mk_qreg "i" 3) "circular").
  - simpl. lia.
  - now right.
Defined.

Section AssemblerTotal.

Context {S : Type}.
Variable of_parameter : Param -> S.

Lemma qc_h_bits_ok (qc : QuantumCircuit S) (qs : list Qubit) :
  qs <> [] ->
  qc_h qc (QBits qs) = Ok (mk_qc (qregs qc) (qc_data qc ++ h_gates qs)).
Proof.
  intros H. unfold qc_h, append1. cbn [qbit_argument_conversion bind].
  destruct qs; [congruence | reflexivity].
Qed.

Lemma firstn_reg_bits_nonempty (r : QuantumRegister) (l : nat) :
  (1 <= l)%nat -> (1 <= reg_size r)%nat -> firstn l (reg_bits r) <> [].
Proof.
  intros Hl Hr H. apply (f_equal (@length Qubit)) in H.
  rewrite length_firstn, length_reg_bits in H. simpl in H. lia.
Qed.

Lemma ansatz_named_ok (adj1 adj2 : ndarray Q) (k l : nat) (name : string) :
  shape adj1 = [(2 ^ k)%nat; (2 ^ k)%nat] ->
  length (data adj1) = (2 ^ k * 2 ^ k)%nat ->
  shape adj2 = [(2 ^ l)%nat; (2 ^ l)%nat] ->
  (2 <= k)%nat -> (1 <= l <= k)%nat ->
  name = "linear" \/ name = "circular" ->
  exists qc,
    ansatz of_parameter adj1 adj2 (TopoName name)
    = Ok (qc,
          mk_ndarray [edge_count name k; 5%nat]
            (map of_parameter
               (map (mk_param "t") (seq 0 (edge_count name k * 5))))) /\
    qregs qc = [reg_i k; reg_j k; reg_a] /\
    length (qc_data qc)
    = (2 * (2 * l + 1)
       + (if shape_eqb (shape adj1) (shape adj2) then 0 else 2) + 4)%nat.
Proof.
  intros Hs1 Hl1 Hs2 Hk Hl Hname.
  assert (Hpow : (2 ^ l <= 2 ^ k)%nat) by (apply Nat.pow_le_mono_r; lia).
  assert (Hnz : (2 ^ l <> 0)%nat) by (apply Nat.pow_nonzero; lia).
  destruct (s4_ansatz_named_ok of_parameter 0 (reg_i k) name Hk Hname)
    as (defn & Hs4 & _).
  cbn [reg_size reg_i] in Hs4. fold (reg_i k) in Hs4.
  destruct (adj_flatten_repr_ext (S := S) adj2 (2 ^ l) k Hs2 Hpow)
    as (q2 & Hq2 & Hext).
  unfold ansatz.
  rewrite (validation_square adj1 _ Hs1), is_pow_2_pow. cbn [bind].
  rewrite (validation_square adj2 _ Hs2), is_pow_2_pow. cbn [bind].
  unfold len. rewrite (adj_flatten_repr_none adj1 k Hs1 Hl1).
  rewrite Hs1, Hs2. cbn [hd].
  destruct (Nat.leb_spec (2 ^ l) (2 ^ k)) as [_ | ?]; [| lia].
  cbn [assert bind]. rewrite num_qubits_ija, circ_qregs_odd. cbn [bind].
  unfold int_log2.
  destruct (Nat.eqb_spec (2 ^ l) 0) as [? | _]; [contradiction |].
  rewrite Nat.log2_pow2 by lia. cbn [bind]. unfold new_circuit.
  rewrite (qc_h_bits_ok _ (firstn l (reg_bits (reg_i k))))
    by (apply firstn_reg_bits_nonempty; simpl; lia).
  cbn [bind qregs qc_data app].
  rewrite (qc_h_bits_ok _ (firstn l (reg_bits (reg_j k))))
    by (apply firstn_reg_bits_nonempty; simpl; lia).
  cbn [bind qregs qc_data app].
  rewrite (qc_h_bits_ok _ (reg_bits reg_a)) by discriminate.
  cbn [bind qregs qc_data app].
  rewrite Hs4. cbn [bind].
  set (perm := OpGate (Some "PermAnsatz") k defn).
  set (hl := (h_gates (firstn l (reg_bits (reg_i k)))
              ++ h_gates (firstn l (reg_bits (reg_j k))))
             ++ @h_gates S (reg_bits reg_a)).
  assert (Hhl : length hl = (2 * l + 1)%nat).
  { unfold hl, h_gates. rewrite !length_app, !length_map, !length_firstn,
      !length_reg_bits. simpl. lia. }
  assert (Hfit : forall qc0 : QuantumCircuit S,
             qregs qc0 = [reg_i k; reg_j k; reg_a] ->
             (reg_size (reg_i k) <= num_qubits qc0)%nat).
  { intros qc0 Hq0. rewrite (num_qubits_regs qc0 k Hq0). simpl. lia. }
  destruct (shape_eqb [(2 ^ k)%nat; (2 ^ k)%nat] [(2 ^ l)%nat; (2 ^ l)%nat]);
    cbn [negb bind].
  - rewrite compose_same_regs by reflexivity. cbn [bind qregs qc_data].
    rewrite (compose_onto_reg _ _ (reg_i k) (reg_i k))
      by (try reflexivity; now apply Hfit).
    cbn [bind qregs qc_data].
    rewrite (compose_onto_reg _ _ (reg_i k) (reg_j k))
      by (try reflexivity; now apply Hfit).
    cbn [bind qregs qc_data].
    rewrite Hext. cbn [bind].
    rewrite compose_same_regs by reflexivity. cbn [bind qregs qc_data].
    rewrite compose_same_regs by reflexivity. cbn [bind qregs qc_data].
    eexists. split; [reflexivity |]. split; [reflexivity |].
    cbn [qc_data]. rewrite !length_app, Hhl. simpl. lia.
  - rewrite (qc_block_inverse (reg_i k) perm). cbn [bind].
    rewrite (compose_onto_reg _ _ (reg_i k) (reg_i k))
      by (try reflexivity; now apply Hfit).
    cbn [bind].
    rewrite (compose_onto_reg _ _ (reg_i k) (reg_j k))
      by (try reflexivity; now apply Hfit).
    cbn [bind qregs qc_data].
    rewrite compose_same_regs by reflexivity. cbn [bind qregs qc_data].
    rewrite (compose_onto_reg _ _ (reg_i k) (reg_i k))
      by (try reflexivity; now apply Hfit).
    cbn [bind qregs qc_data].
    rewrite (compose_onto_reg _ _ (reg_i k) (reg_j k))
      by (try reflexivity; now apply Hfit).
    cbn [bind qregs qc_data].
    rewrite Hext. cbn [bind].
    rewrite compose_same_regs by reflexivity. cbn [bind qregs qc_data].
    rewrite compose_same_regs by reflexivity. cbn [bind qregs qc_data].
    eexists. split; [reflexivity |]. split; [reflexivity |].
    cbn [qc_data]. rewrite !length_app, Hhl. simpl. lia.
Qed.

(** X11: for a host matrix of side [2^k] with [k >= 2] (and its entries)
    and a pattern matrix of side [2^l] with [1 <= l <= k], [ansatz] returns
    for the linear and for the circular topology: a circuit over the
    registers i and j of [k] qubits and a of one qubit, [2 k + 1] qubits in
    all, with the two Hadamard layers of [2 l + 1] gates, the four gates of
    the encoders and of the permutation ansatz, and the two inverses when the
    shapes differ; and the parameter tensor of shape (number of pairs, 5). *)
Theorem ansatz_named_topology :
  forall (adj1 adj2 : ndarray Q) (k l : nat) (name : string),
    shape adj1 = [(2 ^ k)%nat; (2 ^ k)%nat] ->
    length (data adj1) = (2 ^ k * 2 ^ k)%nat ->
    shape adj2 = [(2 ^ l)%nat; (2 ^ l)%nat] ->
    (2 <= k)%nat -> (1 <= l <= k)%nat ->
    name = "linear" \/ name = "circular" ->
    exists qc params,
      ansatz of_parameter adj1 adj2 (TopoName name) = Ok (qc, params) /\
      shape params = [edge_count name k; 5%nat] /\
      qregs qc = [reg_i k; reg_j k; reg_a] /\
      num_qubits qc = (2 * k + 1)%nat /\
      length (qc_data qc)
      = (2 * (2 * l + 1)
         + (if shape_eqb (shape adj1) (shape adj2) then 0 else 2) + 4)%nat.
Proof.
  intros adj1 adj2 k l name Hs1 Hl1 Hs2 Hk Hl Hname.
  destruct (ansatz_named_ok adj1 adj2 k l name Hs1 Hl1 Hs2 Hk Hl Hname)
    as (qc & Hok & Hr & Hd).
  exists qc. eexists. split; [exact Hok |]. split; [reflexivity |].
  split; [exact Hr |]. split; [now apply num_qubits_regs | exact Hd].
Qed.

End AssemblerTotal.

Lemma ansatz_named_topology_witness :
  exists qc params,
    ansatz (fun x => x) cycle4 edge2 (TopoName "linear") = Ok (qc, params) /\
    shape params = [edge_count "linear" 2; 5%nat] /\
    qregs qc = [reg_i 2; reg_j 2; reg_a] /\
    num_qubits qc = (2 * 2 + 1)%nat /\
    length (qc_data qc)
    = (2 * (2 * 1 + 1)
       + (if shape_eqb (shape cycle4) (shape edge2) then 0 else 2) + 4)%nat.
Proof.
  apply (ansatz_named_topology (fun x => x) cycle4 edge2 2 1 "linear");
    try reflexivity; try lia.
  now left.
Defined.

(** * Further properties of the sampling *)

Section SamplingDicts.

Context {K : Type}.
Variable K_eqb : K -> K -> bool.
Variable bit_generator : Z -> nat -> R.
Hypothesis K_eqb_eq : forall a b : K, K_eqb a b = true <-> a = b.

(** X13: on a dict (of distinct keys), without a seed or with a seed that
    is not negative, [sample_exact_thetas] returns a list of exactly [n]
    dicts, each with the keys of the input in their order; a negative seed
    is refused with the [ValueError] of the generator, whatever the
    input. *)
Theorem sample_exact_thetas_dict_keys :
  forall (entropy : Z) (d : pydict R) (n : nat) (seed : option Z),
    (NoDup (dict_keys d) ->
     match seed with Some s => (0 <= s)%Z | None => True end ->
     exists ds,
       sample_exact_thetas K_eqb bit_generator entropy (ThetaDict d) n seed
         = Ok (SampledDicts ds) /\
       length ds = n /\
       Forall (fun d' => dict_keys d' = dict_keys d) ds) /\
    (forall (v : thetas) (s : Z),
        (s < 0)%Z ->
        sample_exact_thetas K_eqb bit_generator entropy v n (Some s)
          = Err ValueError).
Proof.
  intros entropy d n seed. split.
  - intros Hnd Hseed.
    exact (sample_exact_thetas_dict K_eqb bit_generator K_eqb_eq entropy d n
             seed Hnd Hseed).
  - intros v s Hs. unfold sample_exact_thetas, default_rng.
    destruct (Z.ltb_spec s 0) as [_ | ?]; [| lia].
    destruct v; reflexivity.
Qed.

End SamplingDicts.

Lemma sample_exact_thetas_dict_keys_witness :
  (exists ds,
      sample_exact_thetas String.eqb (fun _ _ => 0%R) 0
        (ThetaDict [("a", 1%R); ("b", PI)]) 3 (Some 5%Z)
        = Ok (SampledDicts ds) /\
      length ds = 3%nat /\
      Forall (fun d' => dict_keys d' = ["a"; "b"]) ds) /\
  sample_exact_thetas String.eqb (fun _ _ => 0%R) 0
    (ThetaArray [1%R]) 3 (Some (-1)%Z) = Err ValueError.
Proof.
  split.
  - apply (proj1 (sample_exact_thetas_dict_keys String.eqb (fun _ _ => 0%R)
                    String.eqb_eq 0 [("a", 1%R); ("b", PI)] 3 (Some 5%Z))).
    + repeat constructor; simpl; intuition discriminate.
    + lia.
  - apply (proj2 (sample_exact_thetas_dict_keys String.eqb (fun _ _ => 0%R)
                    String.eqb_eq 0 [] 3 None)).
    lia.
Defined.

(** * The sampling on binary64 numbers *)

(** The product of the comparison with [np.pi] is [np.pi] or 0.0. *)
Lemma float_of_bool_angle (draw prob : float) :
  (Sampling64.float_of_bool (draw <? prob) * Binary64.np_pi)%float
  = sampled_angle draw prob.
Proof.
  unfold sampled_angle.
  destruct (draw <? prob)%float; vm_compute; reflexivity.
Qed.

Lemma sampled_angle_exact (draw prob : float) :
  exact_angle (sampled_angle draw prob).
Proof.
  unfold sampled_angle, exact_angle.
  destruct (draw <? prob)%float; [right | left]; reflexivity.
Qed.

(** The probability of the angle 0.0 is 0.0 and the one of [np.pi] is 1.0:
    a draw of [0, 1) decides the angle itself. *)
Lemma sampled_angle_fixed (draw x : float) :
  (draw <? 0)%float = false ->
  (draw <? 1)%float = true ->
  exact_angle x ->
  sampled_angle draw (Binary64.thetas_to_prob x) = x.
Proof.
  intros H0 H1 [-> | ->]; unfold sampled_angle.
  - replace (Binary64.thetas_to_prob 0) with 0%float
      by (vm_compute; reflexivity).
    now rewrite H0.
  - replace (Binary64.thetas_to_prob Binary64.np_pi) with 1%float
      by (vm_compute; reflexivity).
    now rewrite H1.
Qed.

Lemma map_const_seq {A} (x : A) (s n : nat) :
  map (fun _ => x) (seq s n) = repeat x n.
Proof.
  revert s. induction n as [| n IH]; intros s; simpl; [reflexivity |].
  now rewrite IH.
Qed.

Lemma map_snd_enumerated {A B} (f : A -> B) (l : list A) (s : nat) :
  map (fun jx : nat * A => f (snd jx)) (combine (seq s (length l)) l)
  = map f l.
Proof.
  revert s. induction l as [| a l IH]; intros s; simpl; [reflexivity |].
  now rewrite IH.
Qed.

Section Sampling64Properties.

Context {K : Type}.
Variable K_eqb : K -> K -> bool.
Variable bit_generator : Z -> nat -> float.

Lemma default_rng_stream (entropy : Z) (seed : option Z) :
  usable_seed seed ->
  Sampling64.default_rng bit_generator entropy seed
  = Ok (bit_generator (stream_seed entropy seed)).
Proof.
  intros H. unfold Sampling64.default_rng, stream_seed.
  destruct seed as [s |]; [| reflexivity].
  simpl in H. destruct (Z.ltb_spec s 0); [lia | reflexivity].
Qed.

Lemma sampled_row (g : nat -> float) (d : list (K * float)) (s : nat) :
  combine (map fst d)
    (map (fun pt : float * float =>
            (Sampling64.float_of_bool (fst pt <? snd pt) * Binary64.np_pi)%float)
       (combine (map g (seq s (length d)))
          (map Binary64.thetas_to_prob (map snd d))))
  = map (fun jkv : nat * (K * float) =>
           (fst (snd jkv),
            sampled_angle (g (fst jkv))
                          (Binary64.thetas_to_prob (snd (snd jkv)))))
      (combine (seq s (length d)) d).
Proof.
  revert s. induction d as [| [k v] d IH]; intros s;
    cbn [map combine seq length fst snd]; [reflexivity |].
  now rewrite IH, float_of_bool_angle.
Qed.

Lemma seeded_dicts_length (draws : nat -> float) (d : list (K * float))
    (n : nat) :
  length (seeded_dicts draws d n) = n.
Proof.
  unfold seeded_dicts. now rewrite length_map, length_seq.
Qed.

Lemma seeded_dicts_keys (draws : nat -> float) (d : list (K * float))
    (n : nat) :
  Forall (fun d' : list (K * float) =>
            dict_keys d' = dict_keys d /\
            Forall (fun kv => exact_angle (snd kv)) d')
         (seeded_dicts draws d n).
Proof.
  apply Forall_forall. intros d' Hd'. unfold seeded_dicts in Hd'.
  apply in_map_iff in Hd'. destruct Hd' as (i & <- & _). split.
  - unfold dict_keys, enumerate. rewrite map_map. cbn [fst].
    apply (map_snd_enumerated fst).
  - apply Forall_forall. intros kv Hkv.
    apply in_map_iff in Hkv. destruct Hkv as (jkv & <- & _). cbn [snd].
    apply sampled_angle_exact.
Qed.

(** With draws of [0, 1), a dict of exact angles is its own sample. *)
Lemma seeded_dicts_fixed (draws : nat -> float) (d : list (K * float))
    (n : nat) :
  (forall i, (draws i <? 0)%float = false /\ (draws i <? 1)%float = true) ->
  Forall (fun kv => exact_angle (snd kv)) d ->
  seeded_dicts draws d n = repeat d n.
Proof.
  intros Hdraws Hd. unfold seeded_dicts, enumerate.
  rewrite <- (map_const_seq d 0 n). apply map_ext. intros i.
  generalize (i * length d)%nat as off. generalize 0%nat as s.
  induction Hd as [| [k v] d Hv Hd IH]; intros s off;
    cbn [map combine seq length fst snd]; [reflexivity |].
  rewrite IH. f_equal. f_equal.
  destruct (Hdraws (off + s)%nat) as [H0 H1].
  now apply sampled_angle_fixed.
Qed.

(** Every angle of a returned value is exact, whatever the input. *)
Lemma sample_exact_thetas_values (entropy : Z) (v : Sampling64.thetas)
    (n : nat) (seed : option Z) (out : Sampling64.sampled) :
  Sampling64.sample_exact_thetas K_eqb bit_generator entropy v n seed = Ok out ->
  Forall exact_angle (Sampling64.sampled_values out).
Proof.
  unfold Sampling64.sample_exact_thetas.
  destruct (Sampling64.default_rng bit_generator entropy seed) as [rng | e];
    [| destruct v; discriminate].
  destruct v as [a | d]; cbn [bind load]; [discriminate |].
  match goal with
  | |- context [assert ?b] => destruct b; cbn [assert bind]; [| discriminate]
  end.
  intros [= <-]. apply Forall_forall. intros x Hx.
  cbn [Sampling64.sampled_values] in Hx.
  apply in_flat_map in Hx. destruct Hx as (dct & Hd & Hx).
  apply in_map_iff in Hd. destruct Hd as (row & <- & Hrow).
  apply dict_of_items_values in Hx.
  apply in_map_iff in Hx. destruct Hx as ([k y] & <- & Hky).
  apply in_combine_r in Hky.
  apply in_map_iff in Hrow. destruct Hrow as (prow & <- & _).
  apply in_map_iff in Hky. destruct Hky as ([p t] & <- & _).
  cbn [fst snd]. rewrite float_of_bool_angle. apply sampled_angle_exact.
Qed.

Hypothesis K_eqb_eq : forall a b : K, K_eqb a b = true <-> a = b.

(** On a dict of distinct keys, with a usable seed, the call returns the
    dicts that the stream decides. *)
Lemma sample_exact_thetas_stream (entropy : Z) (d : list (K * float))
    (n : nat) (seed : option Z) :
  NoDup (dict_keys d) ->
  usable_seed seed ->
  Sampling64.sample_exact_thetas K_eqb bit_generator entropy
    (Sampling64.ThetaDict d) n seed
  = Ok (Sampling64.SampledDicts
          (seeded_dicts (bit_generator (stream_seed entropy seed)) d n)).
Proof.
  intros Hnd Hseed. unfold Sampling64.sample_exact_thetas.
  rewrite (default_rng_stream entropy seed Hseed). cbn [bind load].
  set (rng := bit_generator (stream_seed entropy seed)).
  assert (Hrows :
    map (fun v1 : list float => dict_of_items K_eqb (combine (dict_keys d) v1))
      (map (fun row : list float =>
              map (fun pt : float * float =>
                     (Sampling64.float_of_bool (fst pt <? snd pt)
                      * Binary64.np_pi)%float)
                  (combine row (map Binary64.thetas_to_prob (dict_values d))))
         (Sampling64.rng_uniform rng n
            (length (map Binary64.thetas_to_prob (dict_values d)))))
    = seeded_dicts rng d n).
  { unfold Sampling64.rng_uniform, seeded_dicts, enumerate, dict_keys,
      dict_values in *.
    rewrite !map_map, !length_map. apply map_ext. intros i.
    rewrite <- (map_map snd Binary64.thetas_to_prob d).
    rewrite (sampled_row (fun j => rng (i * length d + j)%nat) d 0).
    apply (dict_of_items_NoDup K_eqb K_eqb_eq).
    rewrite map_map. cbn [fst].
    rewrite (map_snd_enumerated fst). exact Hnd. }
  rewrite Hrows, seeded_dicts_length, Nat.eqb_refl. reflexivity.
Qed.

(** C7: a call with an integer seed is decided by the input, [n] and the
    seed alone.  The outcome does not depend on the entropy of the operating
    system, and every angle of a returned value is exactly 0.0 or exactly
    [np.pi].  On a dict (of distinct keys) with a seed that is not negative
    both calls return the [n] dicts that the stream of the seed decides,
    each with the keys of the input: the sample [i] has [np.pi] at the key
    of position [j] exactly when the draw of number [i * len(v) + j] is
    below the probability of the angle of that key.  On a plain array both
    calls raise the [UnboundLocalError] of the read of [dkeys], and with a
    negative seed both raise the [ValueError] of the generator. *)
Theorem sample_exact_thetas_seeded_outcome :
  forall (n : nat) (seed entropy1 entropy2 : Z),
    (forall v : Sampling64.thetas,
        Sampling64.sample_exact_thetas K_eqb bit_generator entropy1 v n
          (Some seed)
        = Sampling64.sample_exact_thetas K_eqb bit_generator entropy2 v n
            (Some seed)) /\
    (forall (v : Sampling64.thetas) (out : Sampling64.sampled),
        Sampling64.sample_exact_thetas K_eqb bit_generator entropy1 v n
          (Some seed) = Ok out ->
        Forall exact_angle (Sampling64.sampled_values out)) /\
    (forall d : list (K * float),
        NoDup (dict_keys d) ->
        (0 <= seed)%Z ->
        Sampling64.sample_exact_thetas K_eqb bit_generator entropy1
          (Sampling64.ThetaDict d) n (Some seed)
        = Ok (Sampling64.SampledDicts
                (seeded_dicts (bit_generator seed) d n)) /\
        Sampling64.sample_exact_thetas K_eqb bit_generator entropy2
          (Sampling64.ThetaDict d) n (Some seed)
        = Ok (Sampling64.SampledDicts
                (seeded_dicts (bit_generator seed) d n)) /\
        length (seeded_dicts (bit_generator seed) d n) = n /\
        Forall (fun d' : list (K * float) =>
                  dict_keys d' = dict_keys d /\
                  Forall (fun kv => exact_angle (snd kv)) d')
               (seeded_dicts (bit_generator seed) d n)) /\
    (forall a : list float,
        (0 <= seed)%Z ->
        Sampling64.sample_exact_thetas K_eqb bit_generator entropy1
          (Sampling64.ThetaArray a) n (Some seed) = Err UnboundLocalError /\
        Sampling64.sample_exact_thetas K_eqb bit_generator entropy2
          (Sampling64.ThetaArray a) n (Some seed) = Err UnboundLocalError) /\
    (forall v : Sampling64.thetas,
        (seed < 0)%Z ->
        Sampling64.sample_exact_thetas K_eqb bit_generator entropy1 v n
          (Some seed) = Err ValueError /\
        Sampling64.sample_exact_thetas K_eqb bit_generator entropy2 v n
          (Some seed) = Err ValueError).
Proof.
  intros n seed entropy1 entropy2.
  split; [reflexivity |].
  split; [intros v out; apply sample_exact_thetas_values |].
  split; [| split].
  - intros d Hnd Hseed.
    split; [exact (sample_exact_thetas_stream entropy1 d n (Some seed) Hnd Hseed) |].
    split; [exact (sample_exact_thetas_stream entropy2 d n (Some seed) Hnd Hseed) |].
    split; [apply seeded_dicts_length | apply seeded_dicts_keys].
  - intros a Hseed. unfold Sampling64.sample_exact_thetas, Sampling64.default_rng.
    destruct (Z.ltb_spec seed 0); [lia |]. split; reflexivity.
  - intros v Hseed. unfold Sampling64.sample_exact_thetas, Sampling64.default_rng.
    destruct (Z.ltb_spec seed 0); [| lia]. destruct v; split; reflexivity.
Qed.

(** The draws of the generator lie in [0, 1): none is below 0.0 and every
    one is below 1.0. *)
Hypothesis bit_generator_range :
  forall (s : Z) (i : nat),
    (bit_generator s i <? 0)%float = false /\
    (bit_generator s i <? 1)%float = true.

(** X14: the sampling keeps an exact configuration, whatever the draws.  On
    a dict (of distinct keys) whose angles are all exactly 0.0 or exactly
    [np.pi], with a usable seed, the call returns [n] copies of the dict
    itself; so every dict that a call returns is returned unchanged by any
    further call on it. *)
Theorem sample_exact_thetas_keeps_exact :
  forall (entropy : Z) (d : list (K * float)) (n : nat) (seed : option Z),
    NoDup (dict_keys d) ->
    usable_seed seed ->
    (Forall (fun kv => exact_angle (snd kv)) d ->
     Sampling64.sample_exact_thetas K_eqb bit_generator entropy
       (Sampling64.ThetaDict d) n seed
     = Ok (Sampling64.SampledDicts (repeat d n))) /\
    (forall ds : list (list (K * float)),
        Sampling64.sample_exact_thetas K_eqb bit_generator entropy
          (Sampling64.ThetaDict d) n seed
        = Ok (Sampling64.SampledDicts ds) ->
        length ds = n /\
        Forall (fun d' : list (K * float) =>
                  forall (entropy' : Z) (m : nat) (seed' : option Z),
                    usable_seed seed' ->
                    Sampling64.sample_exact_thetas K_eqb bit_generator entropy'
                      (Sampling64.ThetaDict d') m seed'
                    = Ok (Sampling64.SampledDicts (repeat d' m))) ds).
Proof.
  intros entropy d n seed Hnd Hseed.
  assert (Hfix : forall (e : Z) (d0 : list (K * float)) (m : nat)
                        (sd : option Z),
             NoDup (dict_keys d0) -> usable_seed sd ->
             Forall (fun kv => exact_angle (snd kv)) d0 ->
             Sampling64.sample_exact_thetas K_eqb bit_generator e
               (Sampling64.ThetaDict d0) m sd
             = Ok (Sampling64.SampledDicts (repeat d0 m))).
  { intros e d0 m sd Hnd0 Hsd Hex.
    rewrite (sample_exact_thetas_stream e d0 m sd Hnd0 Hsd).
    rewrite seeded_dicts_fixed;
      [reflexivity | intros i; apply bit_generator_range | exact Hex]. }
  split; [now apply Hfix |].
  intros ds Hds.
  rewrite (sample_exact_thetas_stream entropy d n seed Hnd Hseed) in Hds.
  injection Hds as <-. split; [apply seeded_dicts_length |].
  pose proof (seeded_dicts_keys (bit_generator (stream_seed entropy seed)) d n)
    as Hkeys.
  apply Forall_forall. intros d' Hd'. rewrite Forall_forall in Hkeys.
  destruct (Hkeys d' Hd') as [Hk Hex].
  intros entropy' m seed' Hseed'. apply Hfix; [| exact Hseed' | exact Hex].
  rewrite Hk. exact Hnd.
Qed.

End Sampling64Properties.

(** A stream of draws for the examples: a quarter and three quarters in
    turn. *)
Lemma sample_exact_thetas_seeded_outcome_witness :
  Sampling64.sample_exact_thetas String.eqb
    (fun _ i => if Nat.even i then 0.25%float else 0.75%float) 0
    (Sampling64.ThetaDict [("a", 1%float); ("b", 2.5%float)]) 2 (Some 7%Z)
  = Ok (Sampling64.SampledDicts
          (seeded_dicts (fun i => if Nat.even i then 0.25%float else 0.75%float)
             [("a", 1%float); ("b", 2.5%float)] 2)).
Proof.
  apply (proj1 (proj2 (proj2 (sample_exact_thetas_seeded_outcome String.eqb
           (fun _ i => if Nat.even i then 0.25%float else 0.75%float)
           String.eqb_eq 2 7%Z 0%Z 1%Z)))).
  - repeat constructor; simpl; intuition discriminate.
  - lia.
Defined.

Lemma sample_exact_thetas_keeps_exact_witness :
  Sampling64.sample_exact_thetas String.eqb (fun _ _ => 0.5%float) 0
    (Sampling64.ThetaDict [("a", 0%float); ("b", Binary64.np_pi)]) 3 (Some 1%Z)
  = Ok (Sampling64.SampledDicts
          (repeat [("a", 0%float); ("b", Binary64.np_pi)] 3)).
Proof.
  apply (proj1 (sample_exact_thetas_keeps_exact String.eqb
           (fun _ _ => 0.5%float) String.eqb_eq
           (fun _ _ => conj eq_refl eq_refl) 0
           [("a", 0%float); ("b", Binary64.np_pi)] 3 (Some 1%Z)
           ltac:(repeat constructor; simpl; intuition discriminate)
           ltac:(simpl; lia))).
  apply Forall_cons; [left; reflexivity |].
  apply Forall_cons; [right; reflexivity | apply Forall_nil].
Defined.

(** * The parameter tensor *)

(** X15: [params_tensor] of a shape of at least one dimension has that
    shape and holds as many parameters as the product of the shape, all
    distinct: the parameter at the flat position [k] is the element [k] of
    the vector of the given name. *)
Theorem params_tensor_distinct :
  forall (shp : list nat) (name : string),
    shp <> [] ->
    shape (params_tensor shp name) = shp /\
    length (data (params_tensor shp name)) = np_product shp /\
    NoDup (data (params_tensor shp name)) /\
    forall k, (k < np_product shp)%nat ->
      nth_error (data (params_tensor shp name)) k = Some (mk_param name k).
Proof.
  intros shp name _. unfold params_tensor. cbn [shape data].
  split; [reflexivity |]. split; [now rewrite length_map, length_seq |].
  split.
  - apply Finite.Injective_map_NoDup; [| apply seq_NoDup].
    intros x y [= H]. exact H.
  - intros k Hk. rewrite nth_error_map, nth_error_seq.
    destruct (Nat.ltb_spec k (np_product shp)); [reflexivity | lia].
Qed.

Lemma params_tensor_distinct_witness :
  nth_error (data (params_tensor [2; 5]%nat "t")) 7 = Some (mk_param "t" 7).
Proof.
  apply (proj2 (proj2 (proj2 (params_tensor_distinct [2; 5]%nat "t"
                                ltac:(discriminate))))).
  simpl. lia.
Defined.

(** * The two symbols of a permutation matrix are inverse permutations *)

Lemma row_keys_exact (rows : list (list Z)) (s : nat) :
  Forall (fun row => count_nonzero row = 1%nat) rows ->
  map fst
    (flat_map (fun ir : nat * list Z =>
       flat_map (fun jx : nat * Z =>
                   if (snd jx =? 0)%Z then [] else [(fst ir, fst jx)])
                (enumerate (snd ir)))
       (combine (seq s (length rows)) rows))
  = seq s (length rows).
Proof.
  intros Hall. revert s.
  induction Hall as [| row rows Hrow Hall IH]; intros s; simpl;
    [reflexivity |].
  rewrite map_app, row_keys_repeat, map_snd_enumerate, Hrow, IH. reflexivity.
Qed.

Lemma seq_keys_sorted {B} (l : list (nat * B)) (s n : nat) :
  map fst l = seq s n -> key_sorted l.
Proof.
  unfold key_sorted. revert s n.
  induction l as [| x l IH]; intros s n H; [constructor |].
  destruct n as [| n]; [discriminate |]. simpl in H.
  injection H as Hx Hl. constructor; [now apply (IH (S s) n) |].
  apply Forall_forall. intros y Hy.
  assert (Hin : In (fst y) (seq (S s) n)) by (rewrite <- Hl; now apply in_map).
  apply in_seq in Hin. lia.
Qed.

Lemma sort_by_key_sorted_id {B} (l : list (nat * B)) :
  key_sorted l -> NoDup (map fst l) -> sort_by_key l = l.
Proof.
  intros Hs Hnd. apply key_sorted_unique.
  - apply sort_by_key_sorted.
  - exact Hs.
  - apply sort_by_key_perm.
  - apply (Permutation_NoDup (l := map fst l)); [| exact Hnd].
    apply Permutation_map, Permutation_sym, sort_by_key_perm.
Qed.

Lemma le_sorted_unique (l1 l2 : list nat) :
  StronglySorted le l1 -> StronglySorted le l2 -> Permutation l1 l2 -> l1 = l2.
Proof.
  intros Hs1. revert l2.
  induction Hs1 as [| x t1 Hs1 IH Hall1]; intros l2 Hs2 Hp.
  - apply Permutation_nil in Hp. now subst.
  - destruct l2 as [| y t2].
    + apply Permutation_sym, Permutation_nil in Hp. discriminate.
    + inversion Hs2 as [| ? ? Hs2' Hall2]; subst.
      assert (Hxy : x = y).
      { assert (Hy : In y (x :: t1))
          by (apply (Permutation_in _ (Permutation_sym Hp)); now left).
        assert (Hx : In x (y :: t2))
          by (apply (Permutation_in _ Hp); now left).
        apply Nat.le_antisymm.
        - destruct Hy as [<- | Hy]; [lia |].
          rewrite Forall_forall in Hall1. now apply Hall1.
        - destruct Hx as [<- | Hx]; [lia |].
          rewrite Forall_forall in Hall2. now apply Hall2. }
      subst y. f_equal. apply IH; [exact Hs2' |].
      now apply Permutation_cons_inv in Hp.
Qed.

Lemma seq_le_sorted (s n : nat) : StronglySorted le (seq s n).
Proof.
  revert s. induction n as [| n IH]; intros s; simpl; constructor.
  - apply IH.
  - apply Forall_forall. intros y Hy. apply in_seq in Hy. lia.
Qed.

Lemma key_sorted_keys {B} (l : list (nat * B)) :
  key_sorted l -> StronglySorted le (map fst l).
Proof.
  unfold key_sorted. induction 1 as [| x l Hs IH Hall]; simpl; constructor.
  - exact IH.
  - apply Forall_forall. intros k Hk. apply in_map_iff in Hk.
    destruct Hk as (y & <- & Hy). rewrite Forall_forall in Hall.
    now apply Hall.
Qed.

Lemma count_ones_none (l : list Z) (i : nat) :
  count_ones l = 0%nat -> nth_error l i = Some 1%Z -> False.
Proof.
  unfold count_ones. revert i. induction l as [| x l IH]; intros i Hc Hn.
  - destruct i; discriminate.
  - simpl in Hc. destruct i as [| i]; simpl in Hn.
    + injection Hn as ->. simpl in Hc. discriminate.
    + destruct (x =? 1)%Z; [discriminate |]. now apply (IH i).
Qed.

Lemma count_ones_unique (l : list Z) (i1 i2 : nat) :
  count_ones l = 1%nat ->
  nth_error l i1 = Some 1%Z -> nth_error l i2 = Some 1%Z -> i1 = i2.
Proof.
  revert i1 i2. induction l as [| x l IH]; intros i1 i2 Hc H1 H2.
  - destruct i1; discriminate.
  - unfold count_ones in Hc. simpl in Hc.
    destruct (Z.eqb_spec x 1) as [-> | Hx].
    + simpl in Hc. injection Hc as Hc. fold (count_ones l) in Hc.
      destruct i1 as [| i1]; destruct i2 as [| i2]; try reflexivity;
        simpl in H1, H2; exfalso; eapply count_ones_none; eassumption.
    + fold (count_ones l) in Hc.
      destruct i1 as [| i1]; simpl in H1; [congruence |].
      destruct i2 as [| i2]; simpl in H2; [congruence |].
      f_equal. now apply IH.
Qed.

Lemma is_perm_matrix_cols (n : nat) (mat : matrix) (j : nat) :
  is_perm_matrix n mat = true -> (j < n)%nat ->
  count_ones (column mat j) = 1%nat.
Proof.
  unfold is_perm_matrix. rewrite !andb_true_iff, !forallb_forall.
  intros (_ & Hc) Hj. apply Nat.eqb_eq, Hc, in_seq. lia.
Qed.

Section PermutationMatrix.

Variable n : nat.
Variable P : matrix.
Hypothesis HP : is_perm_matrix n P = true.

Lemma perm_coords_entry (i j : nat) :
  In (i, j) (nonzero_coords P) ->
  (i < n)%nat /\ (j < n)%nat /\
  nth_error P i = Some (nth i P []) /\
  nth_error (nth i P []) j = Some 1%Z.
Proof.
  intros Hin. apply in_nonzero_coords in Hin.
  destruct Hin as (row & x & Hrow & Hx & Hne).
  destruct (is_perm_matrix_inv n P HP) as (Hl & Hr & He & _).
  assert (Hi : (i < n)%nat).
  { rewrite <- Hl. apply nth_error_Some. congruence. }
  assert (Hrow' : nth i P [] = row) by (now apply nth_error_nth).
  assert (HinP : In row P) by (eapply nth_error_In; eassumption).
  rewrite Forall_forall in Hr, He.
  assert (Hj : (j < n)%nat).
  { rewrite <- (Hr row HinP). apply nth_error_Some. congruence. }
  assert (Hx1 : x = 1%Z).
  { pose proof (He row HinP) as H01. rewrite Forall_forall in H01.
    destruct (H01 x (nth_error_In _ _ Hx)) as [-> | ->];
      [contradiction | reflexivity]. }
  subst x. rewrite Hrow'. repeat split; assumption.
Qed.

Lemma perm_entry_coords (i j : nat) :
  (i < n)%nat -> (j < n)%nat ->
  nth j (nth i P []) 0%Z = 1%Z -> In (i, j) (nonzero_coords P).
Proof.
  intros Hi Hj H1. destruct (is_perm_matrix_inv n P HP) as (Hl & Hr & _ & _).
  apply in_nonzero_coords. exists (nth i P []), 1%Z.
  assert (HinP : In (nth i P []) P) by (apply nth_In; lia).
  rewrite Forall_forall in Hr. pose proof (Hr _ HinP) as Hlen.
  split; [apply nth_error_nth'; lia |]. split; [| discriminate].
  rewrite <- H1. apply nth_error_nth'. lia.
Qed.

Lemma perm_row_keys : map fst (nonzero_coords P) = seq 0 n.
Proof.
  destruct (is_perm_matrix_inv n P HP) as (Hl & _ & He & Ho).
  rewrite <- Hl. apply (row_keys_exact P 0).
  rewrite Forall_forall in *. intros row Hrow.
  rewrite count_nonzero_ones by (apply He, Hrow). now apply Ho.
Qed.

Lemma perm_coords_length : length (nonzero_coords P) = n.
Proof.
  rewrite <- (length_map fst), perm_row_keys. apply length_seq.
Qed.

Lemma perm_column_keys : Permutation (map snd (nonzero_coords P)) (seq 0 n).
Proof.
  apply NoDup_Permutation_bis.
  - apply Finite.Injective_map_NoDup_in.
    + intros [i1 j1] [i2 j2] H1 H2 Hj. cbn [snd] in Hj. subst j2.
      apply perm_coords_entry in H1, H2.
      destruct H1 as (Hi1 & Hj1 & Hr1 & Hx1).
      destruct H2 as (Hi2 & _ & Hr2 & Hx2).
      f_equal.
      apply (count_ones_unique (column P j1));
        [now apply (is_perm_matrix_cols n) | |];
        unfold column; rewrite nth_error_map.
      * rewrite Hr1. cbn [option_map]. f_equal.
        now apply nth_error_nth.
      * rewrite Hr2. cbn [option_map]. f_equal.
        now apply nth_error_nth.
    + apply (NoDup_map_inv fst). rewrite perm_row_keys. apply seq_NoDup.
  - now rewrite length_seq, length_map, perm_coords_length.
  - intros j Hj. apply in_map_iff in Hj. destruct Hj as ([i j'] & <- & Hin).
    apply perm_coords_entry in Hin. apply in_seq. cbn [snd]. lia.
Qed.

(** The symbol with [inverse]: the rows 0, ..., n - 1 over their columns. *)
Lemma perm_inverse_symbol :
  perm_to_2line P true = [seq 0 n; map snd (nonzero_coords P)].
Proof.
  rewrite perm_to_2line_inverse_sorted.
  rewrite sort_by_key_sorted_id.
  - now rewrite perm_row_keys.
  - apply (seq_keys_sorted _ 0 n), perm_row_keys.
  - rewrite perm_row_keys. apply seq_NoDup.
Qed.

(** The default symbol: the columns 0, ..., n - 1 over their rows. *)
Lemma perm_symbol_top :
  map fst (sort_by_key (map swap_pair (nonzero_coords P))) = seq 0 n.
Proof.
  apply le_sorted_unique.
  - apply key_sorted_keys, sort_by_key_sorted.
  - apply seq_le_sorted.
  - rewrite <- perm_column_keys.
    rewrite (Permutation_map fst (sort_by_key_perm _)).
    rewrite map_map. cbn [swap_pair fst]. reflexivity.
Qed.

Lemma in_combine_seq_nth_error {A} (l : list A) (i : nat) (x : A) :
  In (i, x) (combine (seq 0 (length l)) l) <-> nth_error l i = Some x.
Proof.
  rewrite in_combine_seq_iff, Nat.sub_0_r.
  split; [now intros [_ H] | intros H; split; [lia | exact H]].
Qed.

Lemma perm_inverse_symbol_entry (i j : nat) :
  In (i, j) (nonzero_coords P)
  <-> nth_error (map snd (nonzero_coords P)) i = Some j.
Proof.
  rewrite <- in_combine_seq_nth_error, length_map, perm_coords_length.
  rewrite <- perm_row_keys, combine_fst_snd. reflexivity.
Qed.

Lemma perm_symbol_entry (i j : nat) :
  In (i, j) (nonzero_coords P)
  <-> nth_error (map snd (sort_by_key (map swap_pair (nonzero_coords P)))) j
      = Some i.
Proof.
  set (S' := sort_by_key (map swap_pair (nonzero_coords P))).
  assert (Hlen : length (map snd S') = n).
  { rewrite length_map. unfold S'.
    rewrite (Permutation_length (sort_by_key_perm _)), length_map.
    apply perm_coords_length. }
  rewrite <- in_combine_seq_nth_error, Hlen.
  rewrite <- perm_symbol_top. fold S'. rewrite combine_fst_snd.
  unfold S'. split.
  - intros Hin.
    apply (Permutation_in _ (Permutation_sym (sort_by_key_perm _))).
    apply in_map_iff. exists (i, j). now split.
  - intros Hin. apply (Permutation_in _ (sort_by_key_perm _)) in Hin.
    apply in_map_iff in Hin. destruct Hin as ([a b] & [= <- <-] & Hin).
    exact Hin.
Qed.

End PermutationMatrix.

(** X16: for a permutation matrix of side [n], both symbols of
    [perm_to_2line] have the top row 0, ..., n - 1 and a bottom row of [n]
    entries; the bottom row of the default symbol has [i] at the position
    [j] exactly when the entry in row [i] and column [j] of the matrix is 1;
    and the bottom rows of the two symbols are inverse permutations of each
    other: one has [i] at [j] exactly when the other has [j] at [i]. *)
Theorem perm_to_2line_inverse_permutation :
  forall (n : nat) (P : matrix),
    is_perm_matrix n P = true ->
    nth 0 (perm_to_2line P false) [] = seq 0 n /\
    nth 0 (perm_to_2line P true) [] = seq 0 n /\
    length (nth 1 (perm_to_2line P false) []) = n /\
    length (nth 1 (perm_to_2line P true) []) = n /\
    (forall i j : nat,
        (i < n)%nat -> (j < n)%nat ->
        (nth j (nth i P []) 0%Z = 1%Z
         <-> nth_error (nth 1 (perm_to_2line P false) []) j = Some i)) /\
    (forall i j : nat,
        nth_error (nth 1 (perm_to_2line P false) []) j = Some i
        <-> nth_error (nth 1 (perm_to_2line P true) []) i = Some j).
Proof.
  intros n P HP.
  rewrite (perm_inverse_symbol n P HP), perm_to_2line_sorted. cbn [nth].
  split; [now apply perm_symbol_top |]. split; [reflexivity |].
  split.
  { rewrite length_map, (Permutation_length (sort_by_key_perm _)), length_map.
    now apply perm_coords_length. }
  split; [rewrite length_map; now apply perm_coords_length |].
  split.
  - intros i j Hi Hj. rewrite <- (perm_symbol_entry n P HP). split.
    + now apply (perm_entry_coords n P HP).
    + intros Hin. apply (perm_coords_entry n P HP) in Hin.
      destruct Hin as (_ & _ & _ & Hx). now apply nth_error_nth.
  - intros i j.
    rewrite <- (perm_symbol_entry n P HP), <- (perm_inverse_symbol_entry n P HP).
    reflexivity.
Qed.

Lemma perm_to_2line_inverse_permutation_witness :
  nth 0 (perm_to_2line [[0; 1; 0]; [0; 0; 1]; [1; 0; 0]]%Z false) [] = seq 0 3 /\
  nth 0 (perm_to_2line [[0; 1; 0]; [0; 0; 1]; [1; 0; 0]]%Z true) [] = seq 0 3.
Proof.
  pose proof (perm_to_2line_inverse_permutation 3
                [[0; 1; 0]; [0; 0; 1]; [1; 0; 0]]%Z eq_refl) as H.
  split; [exact (proj1 H) | exact (proj1 (proj2 H))].
Defined.

(** * The permutation ansatz on the caller's parameters, and the smallest
    host *)

Section CallerParameters.

Context {S : Type}.
Variable of_parameter : Param -> S.

(** X17: [s4_ansatz] hands the parameter tensor of the caller back as it
    is: whenever it returns on a tensor [p], the tensor returned is [p]; and
    it does return, over a register of [N >= 2] qubits and for the linear or
    the circular topology, on every tensor of shape (number of pairs, 5)
    with its entries, with 13 gates for every pair in the gate. *)
Theorem s4_ansatz_caller_params :
  forall (counter : nat) (topology : topology_spec)
         (qreg : QuantumRegister + nat) (p : ndarray S),
    (forall qc p',
        s4_ansatz of_parameter counter topology qreg (Some p) = Ok (qc, p') ->
        p' = p) /\
    (forall (r : QuantumRegister) (name : string),
        qreg = inl r -> topology = TopoName name ->
        (2 <= reg_size r)%nat ->
        name = "linear" \/ name = "circular" ->
        shape p = [edge_count name (reg_size r); 5%nat] ->
        length (data p) = (edge_count name (reg_size r) * 5)%nat ->
        exists defn,
          s4_ansatz of_parameter counter topology qreg (Some p)
          = Ok (mk_qc [r]
                  [(OpGate (Some "PermAnsatz") (reg_size r) defn, reg_bits r)],
                p) /\
          length defn = (13 * edge_count name (reg_size r))%nat).
Proof.
  intros counter topology qreg p. split.
  - intros qc p' H. unfold s4_ansatz in H.
    inv_bind H. inv_bind H. inv_bind H. inv_bind H. inv_bind H.
    now injection H as _ <-.
  - intros r name -> -> HN Hname Hs Hl.
    destruct (expand_named_ok r name HN Hname) as (d & Hexp & Hd).
    set (E := edge_count name (reg_size r)) in *.
    unfold s4_ansatz. rewrite Hexp. cbn [bind].
    unfold S4_BLOCK_PARCOUNT, ndim, len. rewrite Hs.
    cbn [shape data length nth hd]. rewrite !Nat.eqb_refl.
    cbn [andb assert bind].
    unfold rows_of. rewrite Hs. cbn [shape data].
    destruct (s4_blocks_ok (combine (chunks E 5 (data p)) (chunks E 2 d))
                (new_circuit [r])) as (defn & Hb & Hlen).
    { apply combine_Forall_rows; apply chunks_Forall; assumption. }
    { unfold new_circuit. rewrite num_qubits_one_reg. exact HN. }
    rewrite Hb. unfold new_circuit. cbn [assert bind qregs qc_data app].
    unfold compose_gate, to_gate. cbn [op_num_qubits qc_data qregs].
    rewrite num_qubits_one_reg, !qubits_one_reg, firstn_reg_bits.
    rewrite length_reg_bits, Nat.eqb_refl. cbn [app bind].
    eexists. split; [reflexivity |].
    rewrite length_map, Hlen, length_combine, !chunks_length. lia.
Qed.

(** X18: on a host matrix of side 2 the index registers have one qubit, a
    pre-defined topology has no pair over them, and [ansatz] raises the
    [ValueError] of the topology expansion: with a pattern of side 2, no
    host of side 2 gives a circuit. *)
Theorem ansatz_host_of_side_two :
  forall (adj1 adj2 : ndarray Q) (name : string),
    shape adj1 = [2%nat; 2%nat] ->
    length (data adj1) = 4%nat ->
    shape adj2 = [2%nat; 2%nat] ->
    name = "linear" \/ name = "circular" ->
    ansatz of_parameter adj1 adj2 (TopoName name) = Err ValueError.
Proof.
  intros adj1 adj2 name Hs1 Hl1 Hs2 Hname.
  unfold ansatz.
  rewrite (validation_square adj1 2 Hs1). cbn [_is_pow_2 bind].
  replace (_is_pow_2 (Z.of_nat 2)) with true by reflexivity. cbn [bind].
  rewrite (validation_square adj2 2 Hs2).
  replace (_is_pow_2 (Z.of_nat 2)) with true by reflexivity. cbn [bind].
  unfold len. rewrite (adj_flatten_repr_none adj1 1 Hs1 Hl1).
  rewrite Hs1, Hs2. cbn [hd Nat.leb assert bind].
  rewrite (num_qubits_ija 1), (circ_qregs_odd 1). cbn [bind].
  unfold int_log2. cbn [Nat.eqb bind]. unfold new_circuit.
  replace (Nat.log2 2) with 1%nat by reflexivity.
  rewrite (qc_h_bits_ok _ (firstn 1 (reg_bits (reg_i 1)))) by discriminate.
  cbn [bind qregs qc_data app].
  rewrite (qc_h_bits_ok _ (firstn 1 (reg_bits (reg_j 1)))) by discriminate.
  cbn [bind qregs qc_data app].
  rewrite (qc_h_bits_ok _ (reg_bits reg_a)) by discriminate.
  cbn [bind qregs qc_data app].
  unfold s4_ansatz.
  assert (He : _expand_topology (TopoName name) (reg_i 1) = Err ValueError).
  { destruct Hname as [-> | ->]; reflexivity. }
  rewrite He. reflexivity.
Qed.

End CallerParameters.

Lemma s4_ansatz_caller_params_witness :
  exists defn,
    s4_ansatz (fun x => x) 0 (TopoName "linear") (inl (mk_qreg "r" 3))
      (Some (params_tensor [2; 5]%nat "u"))
    = Ok (mk_qc [mk_qreg "r" 3]
            [(OpGate (Some "PermAnsatz") 3 defn, reg_bits (mk_qreg "r" 3))],
          params_tensor [2; 5]%nat "u") /\
    length defn = (13 * edge_count "linear" 3)%nat.
Proof.
  apply (proj2 (s4_ansatz_caller_params (fun x => x) 0 (TopoName "linear")
                  (inl (mk_qreg "r" 3)) (params_tensor [2; 5]%nat "u"))
           (mk_qreg "r" 3) "linear" eq_refl eq_refl).
  - simpl. lia.
  - now left.
  - reflexivity.
  - reflexivity.
Defined.

Lemma ansatz_host_of_side_two_witness :
  ansatz (fun x => x) edge2 edge2 (TopoName "circular") = Err ValueError.
Proof.
  apply (ansatz_host_of_side_two (fun x => x) edge2 edge2 "circular");
    try reflexivity.
  now right.
Defined.
